(** * zip-archive-tool: the archive builder of [zip_scripts.js]

    A shallow embedding of [createZIP] and of its three local helpers
    ([calcCRC32], [write4B], [write2B]), followed by the properties of the
    archive it assembles.

    Conventions of the embedding.
    - A JavaScript Number that holds an integer is a [Z].  Every count and
      offset of the builder is a sum of lengths, far below 2^53, so the
      additions of the source are exact and are written with [Z.add].
    - The bitwise operators of JavaScript work on 32-bit integers: their
      operands go through ToInt32 (or ToUint32 for [>>>]) first.  These
      conversions are written out ([to_int32], [to_uint32]).
    - A [Uint8Array] and the [ArrayBuffer] under it are a [list Z] of bytes;
      a store into it keeps the value modulo 256 and a store outside its
      bounds does nothing.
    - A JavaScript string is the list of its UTF-16 code units; [length] of
      that list is the [.length] of the source.  A [Blob] built from strings
      holds their UTF-8 encoding. *)

From Stdlib Require Import ZArith Lia List Ascii String.
From stdpp Require Import base tactics option list sorting.

Local Open Scope Z_scope.

(** ** JavaScript 32-bit integer operators *)

Module JS.

(** ToUint32 and ToInt32 of an integral Number. *)
Definition to_uint32 (x : Z) : Z := x mod 2 ^ 32.

Definition to_int32 (x : Z) : Z :=
  let m := x mod 2 ^ 32 in
  if 2 ^ 31 <=? m then m - 2 ^ 32 else m.

(** ToUint8, the conversion of a store into a [Uint8Array]. *)
Definition to_uint8 (x : Z) : Z := x mod 2 ^ 8.

(** [a & b], [a ^ b], [~a]: 32-bit signed results. *)
Definition and (a b : Z) : Z := to_int32 (Z.land (to_int32 a) (to_int32 b)).
Definition xor (a b : Z) : Z := to_int32 (Z.lxor (to_int32 a) (to_int32 b)).
Definition not (a : Z) : Z := to_int32 (Z.lnot (to_int32 a)).

(** [a >> n] keeps the sign, [a >>> n] reads [a] as unsigned; the shift
    count is taken modulo 32. *)
Definition shr (a n : Z) : Z := Z.shiftr (to_int32 a) (to_uint32 n mod 32).
Definition ushr (a n : Z) : Z := Z.shiftr (to_uint32 a) (to_uint32 n mod 32).

(** [if (b)] on a Number: every value but 0 is truthy. *)
Definition truthy (b : Z) : bool := negb (b =? 0).

(** A string is its UTF-16 code units. *)
Abbreviation jsstring := (list Z) (only parsing).

(** [s[i]] on a string: [undefined] (here [None]) outside [0, length). *)
Definition char_at (s : jsstring) (i : Z) : option Z :=
  if i <? 0 then None else s !! Z.to_nat i.

(** [arr[i] = v] on a [Uint8Array]. *)
Definition u8_store (arr : list Z) (i : nat) (v : Z) : list Z :=
  <[i := to_uint8 v]> arr.

(** [new ArrayBuffer(n)]: [n] zero bytes. *)
Definition new_buffer (n : nat) : list Z := replicate n 0.

End JS.

(** ** The helpers of [createZIP] *)

(** The inner loop of [calcCRC32]: [j] counts the iterations left. *)
Fixpoint crc_bits (j : nat) (c crc : Z) : Z :=
  match j with
  | O => crc
  | S j' =>
      let b := JS.and (JS.xor c crc) 1 in
      let crc := JS.ushr crc 1 in
      let crc := if JS.truthy b then JS.xor crc 0xEDB88320 else crc in
      let c := JS.ushr c 1 in
      crc_bits j' c crc
  end.

(** The outer loop, over the bytes of [data] from index 0. *)
Definition crc_bytes (data : list Z) (crc : Z) : Z :=
  fold_left (fun crc c => crc_bits 8 c crc) data crc.

Definition calcCRC32 (data : list Z) : Z :=
  let crc := 0xFFFFFFFF in
  let crc := crc_bytes data crc in
  JS.ushr (JS.not crc) 0.

Definition write4B (arr : list Z) (start_i : nat) (value : Z) : list Z :=
  let arr := JS.u8_store arr start_i (JS.and value 0xFF) in
  let arr := JS.u8_store arr (start_i + 1) (JS.shr (JS.and value 0xFF00) 8) in
  let arr := JS.u8_store arr (start_i + 2) (JS.shr (JS.and value 0xFF0000) 16) in
  JS.u8_store arr (start_i + 3) (JS.ushr (JS.and value 0xFF000000) 24).

Definition write2B (arr : list Z) (start_i : nat) (value : Z) : list Z :=
  let arr := JS.u8_store arr start_i (JS.and value 0xFF) in
  JS.u8_store arr (start_i + 1) (JS.shr (JS.and value 0xFF00) 8).

(** ** Strings inside a [Blob]

    [new Blob(parts)] appends, for an [ArrayBuffer] part, its bytes, and for
    a string part, the UTF-8 encoding of the string after its conversion to
    scalar values (a surrogate pair becomes one scalar value, a lone
    surrogate becomes U+FFFD). *)

Definition is_high_surrogate (u : Z) : bool := (0xD800 <=? u) && (u <=? 0xDBFF).
Definition is_low_surrogate (u : Z) : bool := (0xDC00 <=? u) && (u <=? 0xDFFF).

Fixpoint scalar_values (s : JS.jsstring) : list Z :=
  match s with
  | [] => []
  | u :: rest =>
      if is_high_surrogate u then
        match rest with
        | v :: rest' =>
            if is_low_surrogate v
            then (0x10000 + (u - 0xD800) * 0x400 + (v - 0xDC00)) :: scalar_values rest'
            else 0xFFFD :: scalar_values rest
        | [] => [0xFFFD]
        end
      else if is_low_surrogate u then 0xFFFD :: scalar_values rest
      else u :: scalar_values rest
  end.

Definition utf8_scalar (c : Z) : list Z :=
  if c <? 0x80 then [c]
  else if c <? 0x800 then [0xC0 + c / 64; 0x80 + c mod 64]
  else if c <? 0x10000 then
    [0xE0 + c / 4096; 0x80 + (c / 64) mod 64; 0x80 + c mod 64]
  else
    [0xF0 + c / 262144; 0x80 + (c / 4096) mod 64; 0x80 + (c / 64) mod 64;
     0x80 + c mod 64].

Definition utf8_encode (s : JS.jsstring) : list Z :=
  concat (map utf8_scalar (scalar_values s)).

(** What [zip_data] holds: header buffers and payloads ([ArrayBuffer]) and
    entry names (strings). *)
Inductive blob_part : Type :=
  | BufferPart (bytes : list Z)
  | StringPart (s : JS.jsstring).

Definition part_bytes (p : blob_part) : list Z :=
  match p with
  | BufferPart bytes => bytes
  | StringPart s => utf8_encode s
  end.

(** The bytes of [new Blob(parts)]. *)
Definition Blob (parts : list blob_part) : list Z :=
  concat (map part_bytes parts).

(** ** The entries *)

(** An element of the [files] argument: [{name, data}]. *)
Module Input.
Record file : Type := { name : JS.jsstring; data : list Z }.
End Input.

(** An element of [files_complete]. [local_header_offset] is [null]
    ([None]) until the first loop assigns it. *)
Module Entry.
Record file : Type := {
  name : JS.jsstring;
  data : list Z;
  crc : Z;
  is_dir : bool;
  local_header_offset : option Z
}.

Definition set_local_header_offset (f : file) (v : Z) : file :=
  {| name := name f; data := data f; crc := crc f; is_dir := is_dir f;
     local_header_offset := Some v |}.
End Entry.

(** [s.length] and [buffer.byteLength]. *)
Definition str_length (s : JS.jsstring) : Z := Z.of_nat (length s).
Definition byteLength (b : list Z) : Z := Z.of_nat (length b).

(** [file.name[file.name.length - 1] === "/"]: a strict comparison of a
    one-unit string (or [undefined]) with the string of the unit 0x2F. *)
Definition ends_with_slash (name : JS.jsstring) : bool :=
  match JS.char_at name (str_length name - 1) with
  | Some u => u =? 0x2F
  | None => false
  end.

(** The callback of [files.map]. *)
Definition complete (file : Input.file) : Entry.file :=
  {| Entry.name := Input.name file;
     Entry.data := Input.data file;
     Entry.crc := calcCRC32 (Input.data file);
     Entry.is_dir := ends_with_slash (Input.name file);
     Entry.local_header_offset := None |}.

(** ** The three loops *)

(** The 30-byte header of the first loop. *)
Definition local_header (file : Entry.file) : list Z :=
  let rw_header := JS.new_buffer 30 in
  let rw_header := write4B rw_header 0 0x04034B50 in
  let rw_header := write2B rw_header 26 (str_length (Entry.name file)) in
  if Entry.is_dir file then
    JS.u8_store rw_header 4 20
  else
    let rw_header := JS.u8_store rw_header 4 10 in
    let rw_header := write4B rw_header 14 (Entry.crc file) in
    let rw_header := write4B rw_header 18 (byteLength (Entry.data file)) in
    write4B rw_header 22 (byteLength (Entry.data file)).

(** The two variables the loops share. *)
Record zip_state : Type := {
  zip_data : list blob_part;
  offset_count : Z
}.

Definition push (st : zip_state) (p : blob_part) (len : Z) : zip_state :=
  {| zip_data := zip_data st ++ [p]; offset_count := offset_count st + len |}.

(** One iteration of the first loop: the state after it and the entry with
    its offset assigned. *)
Definition local_step (st : zip_state) (file : Entry.file)
  : zip_state * Entry.file :=
  let header := local_header file in
  let file := Entry.set_local_header_offset file (offset_count st) in
  let st := push st (BufferPart header) (byteLength header) in
  let st := push st (StringPart (Entry.name file)) (str_length (Entry.name file)) in
  let st := push st (BufferPart (Entry.data file)) (byteLength (Entry.data file)) in
  (st, file).

Fixpoint local_files (st : zip_state) (files_complete : list Entry.file)
  : zip_state * list Entry.file :=
  match files_complete with
  | [] => (st, [])
  | file :: rest =>
      let '(st, file) := local_step st file in
      let '(st, rest) := local_files st rest in
      (st, file :: rest)
  end.

(** The operand of a bitwise operator when the offset is still [null]:
    ToInt32(null) is 0. *)
Definition offset_number (o : option Z) : Z := default 0 o.

(** The 46-byte header of the second loop. *)
Definition central_header (file : Entry.file) : list Z :=
  let rw_header := JS.new_buffer 46 in
  let rw_header := write4B rw_header 0 0x02014B50 in
  let rw_header := JS.u8_store rw_header 4 63 in
  let rw_header := JS.u8_store rw_header 5 3 in
  let rw_header := write2B rw_header 28 (str_length (Entry.name file)) in
  let rw_header :=
    write4B rw_header 42 (offset_number (Entry.local_header_offset file)) in
  if Entry.is_dir file then
    let rw_header := JS.u8_store rw_header 6 20 in
    write2B rw_header 40 16877 (* 0o00040755 *)
  else
    let rw_header := JS.u8_store rw_header 6 10 in
    let rw_header := write4B rw_header 16 (Entry.crc file) in
    let rw_header := write4B rw_header 20 (byteLength (Entry.data file)) in
    let rw_header := write4B rw_header 24 (byteLength (Entry.data file)) in
    write2B rw_header 40 33188 (* 0o00100644 *).

Definition central_step (st : zip_state) (file : Entry.file) : zip_state :=
  let header := central_header file in
  let st := push st (BufferPart header) (byteLength header) in
  push st (StringPart (Entry.name file)) (str_length (Entry.name file)).

Definition central_directory (st : zip_state) (files_complete : list Entry.file)
  : zip_state :=
  fold_left central_step files_complete st.

(** The 22-byte record of the last block. *)
Definition end_record (count offset_count central_dir_offset : Z) : list Z :=
  let rw_end_record := JS.new_buffer 22 in
  let rw_end_record := write4B rw_end_record 0 0x06054B50 in
  let rw_end_record := write2B rw_end_record 8 count in
  let rw_end_record := write2B rw_end_record 10 count in
  let rw_end_record :=
    write4B rw_end_record 12 (offset_count - central_dir_offset) in
  write4B rw_end_record 16 central_dir_offset.

(** ** [createZIP] *)

Definition initial_state : zip_state := {| zip_data := []; offset_count := 0 |}.

(** [files_complete] and the loop variables when the first loop ends. *)
Definition phase1 (files : list Input.file) : zip_state * list Entry.file :=
  local_files initial_state (map complete files).

(** The loop variables when the second loop ends. *)
Definition phase2 (files : list Input.file) : zip_state :=
  let '(st, files_complete) := phase1 files in
  central_directory st files_complete.

(** [zip_data] at the [return]. *)
Definition createZIP_parts (files : list Input.file) : list blob_part :=
  let '(st1, files_complete) := phase1 files in
  let central_dir_offset := offset_count st1 in
  let st2 := central_directory st1 files_complete in
  let end_record :=
    end_record (Z.of_nat (length files_complete)) (offset_count st2)
               central_dir_offset in
  zip_data st2 ++ [BufferPart end_record].

Definition createZIP (files : list Input.file) : list Z :=
  Blob (createZIP_parts files).

(** ** Reading the archive back

    Helpers of the statements below, not part of the source: the value of a
    little-endian field and code units of an 8-bit text. *)

Fixpoint le_value (bytes : list Z) : Z :=
  match bytes with
  | [] => 0
  | b :: rest => b + 256 * le_value rest
  end.

Definition field (buf : list Z) (off width : nat) : Z :=
  le_value (take width (drop off buf)).

Definition units (s : string) : JS.jsstring :=
  map (fun a => Z.of_N (N_of_ascii a)) (list_ascii_of_string s).

(** ** [createZIP] over a store of objects

    The same function with the objects of the JavaScript heap made
    explicit, for the properties that depend on which object is written.
    A location holds an [ArrayBuffer], an array of object references, an
    object [{name, data}] of the caller, or an object of [files_complete].
    Strings and numbers are values.  [zip_data] and [files_complete] are
    arrays created by the call and reachable from its local variables only;
    they are kept as lists of references.  A header buffer is reachable
    from [header] and [rw_header] only until it is pushed, so it is
    allocated with the bytes the writes leave in it. *)

Module Heap.

Abbreviation loc := nat (only parsing).

Inductive cell : Type :=
  | Buffer (bytes : list Z)
  | Array (elements : list loc)
  | FileObject (name : JS.jsstring) (data : loc)
  | CompleteObject (name : JS.jsstring) (data : loc) (crc : Z)
      (is_dir : bool) (local_header_offset : option Z).

Abbreviation store := (list cell) (only parsing).

(** Computations that read and write the store; [None] when a location
    does not hold the kind of object the source expects there. *)
Definition M (A : Type) : Type := store -> option (A * store).

Definition ret {A : Type} (a : A) : M A := fun s => Some (a, s).

Definition bind {A B : Type} (m : M A) (k : A -> M B) : M B :=
  fun s =>
    match m s with
    | Some (a, s') => k a s'
    | None => None
    end.

Definition fail {A : Type} : M A := fun _ => None.

Notation "'do' x <- m ; k" := (bind m (fun x => k))
  (at level 10, x pattern, m at level 100, k at level 200).

(** [new ...] and object literals: a location the store does not use. *)
Definition alloc (c : cell) : M loc :=
  fun s => Some (length s, s ++ [c]).

Definition load (l : loc) : M cell :=
  fun s =>
    match s !! l with
    | Some c => Some (c, s)
    | None => None
    end.

Definition read_array (l : loc) : M (list loc) :=
  do c <- load l;
  match c with Array elements => ret elements | _ => fail end.

Definition read_buffer (l : loc) : M (list Z) :=
  do c <- load l;
  match c with Buffer bytes => ret bytes | _ => fail end.

(** The entry an object of [files_complete] stands for; its [data] is the
    content of the buffer it refers to. *)
Definition read_entry (l : loc) : M (Entry.file * loc) :=
  do c <- load l;
  match c with
  | CompleteObject name data crc is_dir offset =>
      do bytes <- read_buffer data;
      ret ({| Entry.name := name; Entry.data := bytes; Entry.crc := crc;
              Entry.is_dir := is_dir; Entry.local_header_offset := offset |},
           data)
  | _ => fail
  end.

(** [file.local_header_offset = v]. *)
Definition set_local_header_offset (l : loc) (v : Z) : M unit :=
  fun s =>
    match s !! l with
    | Some (CompleteObject name data crc is_dir _) =>
        Some (tt, <[l := CompleteObject name data crc is_dir (Some v)]> s)
    | _ => None
    end.

Fixpoint traverse {A B : Type} (f : A -> M B) (l : list A) : M (list B) :=
  match l with
  | [] => ret []
  | a :: rest =>
      do b <- f a;
      do bs <- traverse f rest;
      ret (b :: bs)
  end.

Fixpoint foldM {A B : Type} (f : A -> B -> M A) (l : list B) (a : A) : M A :=
  match l with
  | [] => ret a
  | b :: rest => do a' <- f a b; foldM f rest a'
  end.

(** The callback of [files.map]: a new object that shares the name and
    the data buffer of the caller's object. *)
Definition complete (file : loc) : M loc :=
  do c <- load file;
  match c with
  | FileObject name data =>
      do bytes <- read_buffer data;
      alloc (CompleteObject name data (calcCRC32 bytes)
               (ends_with_slash name) None)
  | _ => fail
  end.

(** What [zip_data] holds. *)
Inductive part : Type :=
  | BufferRef (l : loc)
  | StringValue (s : JS.jsstring).

Record zip_state : Type := {
  zip_data : list part;
  offset_count : Z
}.

Definition push (st : zip_state) (p : part) (len : Z) : zip_state :=
  {| zip_data := zip_data st ++ [p]; offset_count := offset_count st + len |}.

Definition local_step (st : zip_state) (file : loc) : M zip_state :=
  do (entry, data) <- read_entry file;
  do header <- alloc (Buffer (local_header entry));
  do _ <- set_local_header_offset file (offset_count st);
  let st := push st (BufferRef header) (byteLength (local_header entry)) in
  let st := push st (StringValue (Entry.name entry))
              (str_length (Entry.name entry)) in
  ret (push st (BufferRef data) (byteLength (Entry.data entry))).

Definition central_step (st : zip_state) (file : loc) : M zip_state :=
  do (entry, _) <- read_entry file;
  do header <- alloc (Buffer (central_header entry));
  let st := push st (BufferRef header) (byteLength (central_header entry)) in
  ret (push st (StringValue (Entry.name entry))
         (str_length (Entry.name entry))).

(** [new Blob(zip_data)] reads the buffers the parts refer to. *)
Definition part_bytes (p : part) : M (list Z) :=
  match p with
  | BufferRef l => read_buffer l
  | StringValue s => ret (utf8_encode s)
  end.

Definition Blob (parts : list part) : M (list Z) :=
  do chunks <- traverse part_bytes parts;
  ret (concat chunks).

Definition createZIP (files : loc) : M (list Z) :=
  do elements <- read_array files;
  do files_complete <- traverse complete elements;
  let st := {| zip_data := []; offset_count := 0 |} in
  do st <- foldM local_step files_complete st;
  let central_dir_offset := offset_count st in
  do st <- foldM central_step files_complete st;
  do end_record <-
    alloc (Buffer (end_record (Z.of_nat (length files_complete))
                     (offset_count st) central_dir_offset));
  Blob (zip_data st ++ [BufferRef end_record]).

(** The caller's list as the pure model takes it. *)
Definition input_file (s : store) (file : loc) : option Input.file :=
  match s !! file with
  | Some (FileObject name data) =>
      match s !! data with
      | Some (Buffer bytes) =>
          Some {| Input.name := name; Input.data := bytes |}
      | _ => None
      end
  | _ => None
  end.

Definition input_files (s : store) (files : loc)
  : option (list Input.file) :=
  match s !! files with
  | Some (Array elements) => mapM (input_file s) elements
  | _ => None
  end.

End Heap.

(** ** The earlier copy of [createZIP]

    The file still holds an earlier copy of [createZIP], before directories
    were supported. Its helpers and loops are the same; the callback of
    [files.map] differs in one field. *)

Definition complete_earlier (file : Input.file) : Entry.file :=
  {| Entry.name := Input.name file;
     Entry.data := Input.data file;
     Entry.crc := calcCRC32 (Input.data file);
     Entry.is_dir := false;
     Entry.local_header_offset := None |}.

(** ** Observations on the archive *)

(** The [n] low bytes of [v], least significant first. *)
Fixpoint le_bytes (n : nat) (v : Z) : list Z :=
  match n with
  | O => []
  | S n' => v mod 256 :: le_bytes n' (v / 256)
  end.

(** An octal numeral, most significant digit first. *)
Definition octal (digits : list Z) : Z :=
  fold_left (fun acc d => 8 * acc + d) digits 0.

(** What one iteration of each loop pushes and counts. *)
Definition local_parts (file : Entry.file) : list blob_part :=
  [BufferPart (local_header file); StringPart (Entry.name file);
   BufferPart (Entry.data file)].

Definition central_parts (file : Entry.file) : list blob_part :=
  [BufferPart (central_header file); StringPart (Entry.name file)].

Definition local_size (file : Entry.file) : Z :=
  30 + str_length (Entry.name file) + byteLength (Entry.data file).

Definition central_size (file : Entry.file) : Z :=
  46 + str_length (Entry.name file).

Definition total (size : Entry.file -> Z) (files : list Entry.file) : Z :=
  fold_right (fun file acc => size file + acc) 0 files.

(** The entries after the first loop, when it starts at count [o]. *)
Fixpoint assign_offsets (o : Z) (files : list Entry.file) : list Entry.file :=
  match files with
  | [] => []
  | file :: rest =>
      Entry.set_local_header_offset file o
      :: assign_offsets (o + local_size file) rest
  end.

(** Observations on the result, used to state the properties: the header
    buffers pushed for entry [i] by the first and by the second loop, the
    offset the first loop recorded for it, and the byte position of a part
    inside the Blob. *)
Definition buffer_part (p : option blob_part) : option (list Z) :=
  match p with
  | Some (BufferPart bytes) => Some bytes
  | _ => None
  end.

Definition local_header_at (files : list Input.file) (i : nat)
  : option (list Z) :=
  buffer_part (createZIP_parts files !! (3 * i)%nat).

Definition central_header_at (files : list Input.file) (i : nat)
  : option (list Z) :=
  buffer_part (createZIP_parts files !! (3 * length files + 2 * i)%nat).

Definition recorded_offset (files : list Input.file) (i : nat) : option Z :=
  match snd (phase1 files) !! i with
  | Some file => Entry.local_header_offset file
  | None => None
  end.

Definition part_position (parts : list blob_part) (k : nat) : Z :=
  Z.of_nat (length (Blob (take k parts))).

Definition local_header_position (files : list Input.file) (i : nat) : Z :=
  part_position (createZIP_parts files) (3 * i).

(** The bytes each loop really emits for an entry: the name counts for the
    length of its UTF-8 encoding. *)
Definition emitted_local_size (file : Entry.file) : Z :=
  30 + Z.of_nat (length (utf8_encode (Entry.name file)))
  + byteLength (Entry.data file).

Definition emitted_central_size (file : Entry.file) : Z :=
  46 + Z.of_nat (length (utf8_encode (Entry.name file))).

(** A name of 7-bit code units only. *)
Definition ascii_string (s : JS.jsstring) : Prop :=
  Forall (fun u => 0 <= u < 128) s.

Definition ascii_name (file : Input.file) : Prop :=
  ascii_string (Input.name file).

(** The last 22 bytes of the archive, and the bytes each of the first two
    loops emitted into the Blob. *)
Definition end_of_central_directory (files : list Input.file) : list Z :=
  let out := createZIP files in
  drop (length out - 22) out.

Definition phase1_bytes (files : list Input.file) : Z :=
  Z.of_nat (length (Blob (zip_data (fst (phase1 files))))).

Definition phase2_bytes (files : list Input.file) : Z :=
  Z.of_nat (length (Blob (zip_data (phase2 files)))) - phase1_bytes files.

(** ** What the specification asks *)

(** The CRC-32 of the specification, following its words: a 32-bit register
    that starts at all-ones; each byte is XORed into the low 8 bits, then 8
    times "if the low bit is 1, shift right and XOR with the polynomial
    constant, else shift right"; the result is the one's complement of the
    register. *)
Definition crc32_polynomial : Z := 0xEDB88320.

Definition reference_shift (reg : Z) : Z :=
  if Z.testbit reg 0
  then Z.lxor (Z.shiftr reg 1) crc32_polynomial
  else Z.shiftr reg 1.

Definition reference_byte (reg byte : Z) : Z :=
  Nat.iter 8 reference_shift (Z.lxor reg byte).

Definition crc32_reference (data : list Z) : Z :=
  Z.lxor (fold_left reference_byte data 0xFFFFFFFF) 0xFFFFFFFF.

Definition is_byte (b : Z) : Prop := 0 <= b < 256.

(** What C2 asks of the end record. *)
Definition end_record_summarizes (files : list Input.file) : Prop :=
  let eocd := end_of_central_directory files in
  field eocd 8 2 = Z.of_nat (length files) /\
  field eocd 10 2 = Z.of_nat (length files) /\
  field eocd 12 4 = phase2_bytes files /\
  field eocd 16 4 = phase1_bytes files.

(** How a call of [createZIP] completes. The body holds no [throw] and, on
    an array of [{name, data}] objects, no operation that throws: every
    call returns its Blob. *)
Inductive completion : Type :=
  | Returns (blob : list Z)
  | Throws.

Definition createZIP_call (files : list Input.file) : completion :=
  Returns (createZIP files).

(** The inputs the specification wants rejected. *)
Definition name_too_long (file : Input.file) : Prop :=
  65535 < Z.of_nat (length (utf8_encode (Input.name file))).

Definition directory_with_data (file : Input.file) : Prop :=
  (exists pre, Input.name file = pre ++ [0x2F]) /\ Input.data file <> [].

Definition out_of_range (files : list Input.file) : Prop :=
  2 ^ 32 <= phase1_bytes files \/ 2 ^ 32 <= phase2_bytes files \/
  Exists (fun file => 2 ^ 32 <= byteLength (Input.data file)) files.

Definition rejected_by_specification (files : list Input.file) : Prop :=
  Exists name_too_long files \/ Exists directory_with_data files \/
  65535 < Z.of_nat (length files) \/ out_of_range files.

(** ** Relating the store model to the pure model *)

(** The object at [c] stands for the entry [e], with its data in the buffer
    at [d]. *)
Definition holds (s : Heap.store) (c : Heap.loc) (e : Entry.file)
    (d : Heap.loc) : Prop :=
  s !! c = Some (Heap.CompleteObject (Entry.name e) d (Entry.crc e)
                   (Entry.is_dir e) (Entry.local_header_offset e)) /\
  s !! d = Some (Heap.Buffer (Entry.data e)).

Definition stands_for (s : Heap.store) (c : Heap.loc) (e : Entry.file) : Prop :=
  exists d, holds s c e d.

(** A part of the store model and the part of the pure model it reads as. *)
Definition resolves (s : Heap.store) (p : Heap.part) (q : blob_part) : Prop :=
  match p, q with
  | Heap.BufferRef l, BufferPart bytes => s !! l = Some (Heap.Buffer bytes)
  | Heap.StringValue a, StringPart b => a = b
  | _, _ => False
  end.

(** The loop state of the store model and of the pure model agree. *)
Definition same_state (s : Heap.store) (st : Heap.zip_state) (sp : zip_state)
  : Prop :=
  Forall2 (resolves s) (Heap.zip_data st) (zip_data sp) /\
  Heap.offset_count st = offset_count sp.

(** [s'] extends [s] and differs from it below [length s] at most at the
    locations [cs]. *)
Definition changes_only (cs : list Heap.loc) (s s' : Heap.store) : Prop :=
  (length s <= length s')%nat /\
  forall l, (l < length s)%nat -> l ∉ cs -> s' !! l = s !! l.

(** ** The callers of [createZIP]

    The functions of the page around [createZIP], as far as they act on the
    list [files_to_zip]: the value of the path field and the result of the
    file reader are arguments, the rendering of the list is left out. *)

Definition createFileDataObject (n : JS.jsstring) (d : list Z) : Input.file :=
  {| Input.name := n; Input.data := d |}.

(** [determinePath], on the value of [input_path]. [path[path.length - 1]
    !== "/"] is the negation of the strict equality of [ends_with_slash]. *)
Definition determinePath (input_path_value : JS.jsstring) : JS.jsstring :=
  let path := input_path_value in
  if negb (str_length path =? 0) && negb (ends_with_slash path)
  then path ++ [0x2F]
  else path.

(** [array.filter((element, index) => ...)]. *)
Fixpoint filter_from {A : Type} (keep : A -> nat -> bool) (index : nat)
    (l : list A) : list A :=
  match l with
  | [] => []
  | element :: rest =>
      if keep element index
      then element :: filter_from keep (S index) rest
      else filter_from keep (S index) rest
  end.

Definition Array_filter {A : Type} (keep : A -> nat -> bool) (l : list A)
  : list A :=
  filter_from keep 0 l.

Section FileList.

(** [String.prototype.localeCompare] depends on the collation of the host;
    it is a parameter. *)
Variable localeCompare : list Z -> list Z -> Z.

(** The comparator of [updateFileDisplay]. *)
Definition by_name (a b : Input.file) : Z :=
  localeCompare (Input.name a) (Input.name b).

(** [Array.prototype.sort] with a comparator: a stable sort, which places
    [a] before [b] when the comparator is negative and keeps their order
    when it is 0. For a comparator that is a total preorder the result is
    determined; it is computed here by insertion from the right. *)
Fixpoint sort_insert (x : Input.file) (l : list Input.file)
  : list Input.file :=
  match l with
  | [] => [x]
  | y :: rest =>
      if by_name x y <=? 0 then x :: y :: rest else y :: sort_insert x rest
  end.

Definition Array_sort (l : list Input.file) : list Input.file :=
  fold_right sort_insert [] l.

(** [updateFileDisplay]: what it leaves in [files_to_zip]. *)
Definition updateFileDisplay (files_to_zip : list Input.file)
  : list Input.file :=
  Array_sort files_to_zip.

(** The listener of the [i]-th "Remove" button. *)
Definition remove_click (i : nat) (files_to_zip : list Input.file)
  : list Input.file :=
  let files_to_zip :=
    Array_filter (fun _ index => negb (index =? i)%nat) files_to_zip in
  updateFileDisplay files_to_zip.

(** The [onload] handler of [addFile], for a file named [file_name] read as
    [result]. *)
Definition addFile_onload (input_path_value file_name : JS.jsstring)
    (result : list Z) (files_to_zip : list Input.file) : list Input.file :=
  let path := determinePath input_path_value in
  let files_to_zip :=
    files_to_zip ++ [createFileDataObject (path ++ file_name) result] in
  updateFileDisplay files_to_zip.

Definition addDirectory (input_path_value : JS.jsstring)
    (files_to_zip : list Input.file) : list Input.file :=
  let path := determinePath input_path_value in
  let files_to_zip :=
    files_to_zip ++ [createFileDataObject path (JS.new_buffer 0)] in
  updateFileDisplay files_to_zip.

End FileList.

(** ** The earlier copy of [createZIP], whole

    The helpers and the three loops of the earlier copy are the ones above;
    only the callback of [files.map] differs. *)

Definition phase1_earlier (files : list Input.file)
  : zip_state * list Entry.file :=
  local_files initial_state (map complete_earlier files).

Definition createZIP_parts_earlier (files : list Input.file)
  : list blob_part :=
  let '(st1, files_complete) := phase1_earlier files in
  let central_dir_offset := offset_count st1 in
  let st2 := central_directory st1 files_complete in
  let end_record :=
    end_record (Z.of_nat (length files_complete)) (offset_count st2)
               central_dir_offset in
  zip_data st2 ++ [BufferPart end_record].

Definition createZIP_earlier (files : list Input.file) : list Z :=
  Blob (createZIP_parts_earlier files).

(** ** Further observations on the archive *)

(** The bytes an entry takes in the archive: a local header, a central
    header, the encoded name twice and the data once. *)
Definition entry_size (file : Input.file) : Z :=
  30 + 46 + 2 * Z.of_nat (length (utf8_encode (Input.name file)))
  + byteLength (Input.data file).

Definition archive_size (files : list Input.file) : Z :=
  fold_right (fun file acc => entry_size file + acc) 22 files.

(** The bytes the encoded name of an entry takes beyond its [length]. *)
Definition name_excess (file : Entry.file) : Z :=
  Z.of_nat (length (utf8_encode (Entry.name file)))
  - str_length (Entry.name file).

(** The byte position of the central header of entry [i]. *)
Definition central_header_position (files : list Input.file) (i : nat) : Z :=
  part_position (createZIP_parts files) (3 * length files + 2 * i).

(** The states of [files_to_zip] the page can reach, when no selected file
    has a name that ends with '/'. *)
Inductive reachable (localeCompare : list Z -> list Z -> Z)
  : list Input.file -> Prop :=
  | reach_initial : reachable localeCompare []
  | reach_addFile (input_path_value file_name : list Z) (result : list Z)
      (files : list Input.file) :
      file_name <> [] ->
      ends_with_slash file_name = false ->
      reachable localeCompare files ->
      reachable localeCompare
        (addFile_onload localeCompare input_path_value file_name result files)
  | reach_addDirectory (input_path_value : list Z) (files : list Input.file) :
      reachable localeCompare files ->
      reachable localeCompare (addDirectory localeCompare input_path_value files)
  | reach_remove (i : nat) (files : list Input.file) :
      reachable localeCompare files ->
      reachable localeCompare (remove_click localeCompare i files).

(** [a] is placed before [b] by the comparator of [updateFileDisplay]. *)
Definition before (localeCompare : list Z -> list Z -> Z)
    (a b : Input.file) : Prop :=
  by_name localeCompare a b <= 0.

(** A comparator that orders its arguments consistently. *)
Definition consistent (compare : Input.file -> Input.file -> Z) : Prop :=
  (forall a b, 0 < compare a b -> compare b a <= 0) /\
  (forall a b c, compare a b <= 0 -> compare b c <= 0 -> compare a c <= 0).

(** Every element is placed before the ones that follow it. *)
Definition ordered (compare : Input.file -> Input.file -> Z)
    (l : list Input.file) : Prop :=
  forall i j a b, (i < j)%nat -> l !! i = Some a -> l !! j = Some b ->
    compare a b <= 0.

(** ** Inputs used below *)

Definition fox : list Z :=
  units "The quick brown fox jumps over the lazy dog".

Definition scenarioB : list Input.file :=
  [ {| Input.name := units "a.txt"; Input.data := [104; 105] |} ].

Definition folder_with_file : list Input.file :=
  [ {| Input.name := units "a.txt"; Input.data := [104; 105] |};
    {| Input.name := units "folder/"; Input.data := [] |} ].

(** Two entries, the first one named "é" (the single code unit U+00E9). *)
Definition accented : list Input.file :=
  [ {| Input.name := [0xE9]; Input.data := [] |};
    {| Input.name := units "b"; Input.data := [] |} ].

Definition empty_file : Input.file := {| Input.name := []; Input.data := [] |}.

(** 65536 entries with an empty name and no data. *)
Definition many_entries : list Input.file :=
  replicate (Z.to_nat 65536) empty_file.


(** A directory entry that carries three bytes of data. *)
Definition folder_with_data : list Input.file :=
  [ {| Input.name := units "d/"; Input.data := [1; 2; 3] |} ].

Definition folder_with_data_first : list Input.file :=
  [ {| Input.name := units "d/"; Input.data := [1; 2; 3] |};
    {| Input.name := units "a.txt"; Input.data := [104; 105] |} ].

(** A store with two files sharing nothing, and a list that names the first
    file twice. *)
Definition heap_example : list Heap.cell :=
  [ Heap.Buffer [104; 105];
    Heap.FileObject (units "a.txt") 0%nat;
    Heap.Buffer [];
    Heap.FileObject (units "folder/") 2%nat;
    Heap.Array [1; 3; 1]%nat ].

(** * Properties *)

Example crc_fox : calcCRC32 fox = 0x414FA339.
Proof. vm_compute. reflexivity. Qed.

Example crc_empty : calcCRC32 [] = 0.
Proof. vm_compute. reflexivity. Qed.

Example write4B_signature :
  write4B (replicate 6 7) 1 0x04034B50 = [7; 0x50; 0x4B; 0x03; 0x04; 7].
Proof. vm_compute. reflexivity. Qed.

Example write4B_top_bit :
  write4B (replicate 4 7) 0 0xFEDCBA98 = [0x98; 0xBA; 0xDC; 0xFE].
Proof. vm_compute. reflexivity. Qed.

Example scenarioB_length : length (createZIP scenarioB) = 110%nat.
Proof. vm_compute. reflexivity. Qed.

(** The archive of the empty list is the end record alone. *)
Example empty_archive :
  createZIP []
  = [0x50; 0x4B; 5; 6; 0; 0; 0; 0; 0; 0; 0; 0; 0; 0; 0; 0; 0; 0; 0; 0; 0; 0].
Proof. vm_compute. reflexivity. Qed.

(** ** Bits of the 32-bit operators *)

Section Bits.

Lemma to_int32_testbit (x n : Z) :
  0 <= n < 32 -> Z.testbit (JS.to_int32 x) n = Z.testbit x n.
Proof.
  intros Hn. unfold JS.to_int32. cbv zeta.
  destruct (2 ^ 31 <=? x mod 2 ^ 32).
  - rewrite <- (Z.mod_pow2_bits_low (x mod 2 ^ 32 - 2 ^ 32) 32 n) by lia.
    replace (x mod 2 ^ 32 - 2 ^ 32) with (x mod 2 ^ 32 + (-1) * 2 ^ 32) by lia.
    rewrite Z.mod_add by lia. rewrite Z.mod_mod by lia.
    apply Z.mod_pow2_bits_low. lia.
  - apply Z.mod_pow2_bits_low. lia.
Qed.

Lemma to_uint32_testbit (x n : Z) :
  0 <= n ->
  Z.testbit (JS.to_uint32 x) n = (n <? 32) && Z.testbit x n.
Proof.
  intros Hn. unfold JS.to_uint32.
  destruct (Z.ltb_spec n 32); simpl.
  - apply Z.mod_pow2_bits_low. lia.
  - apply Z.mod_pow2_bits_high. lia.
Qed.

Lemma to_uint8_testbit (x n : Z) :
  0 <= n ->
  Z.testbit (JS.to_uint8 x) n = (n <? 8) && Z.testbit x n.
Proof.
  intros Hn. unfold JS.to_uint8.
  destruct (Z.ltb_spec n 8); simpl.
  - apply Z.mod_pow2_bits_low. lia.
  - apply Z.mod_pow2_bits_high. lia.
Qed.

Lemma and_testbit (a b n : Z) :
  0 <= n < 32 ->
  Z.testbit (JS.and a b) n = Z.testbit a n && Z.testbit b n.
Proof.
  intros Hn. unfold JS.and.
  rewrite to_int32_testbit, Z.land_spec, !to_int32_testbit by lia. done.
Qed.

Lemma xor_testbit (a b n : Z) :
  0 <= n < 32 ->
  Z.testbit (JS.xor a b) n = xorb (Z.testbit a n) (Z.testbit b n).
Proof.
  intros Hn. unfold JS.xor.
  rewrite to_int32_testbit, Z.lxor_spec, !to_int32_testbit by lia. done.
Qed.

Lemma not_testbit (a n : Z) :
  0 <= n < 32 -> Z.testbit (JS.not a) n = negb (Z.testbit a n).
Proof.
  intros Hn. unfold JS.not.
  rewrite to_int32_testbit, Z.lnot_spec, to_int32_testbit by lia. done.
Qed.

Lemma shift_count (s : Z) : 0 <= s < 32 -> JS.to_uint32 s mod 32 = s.
Proof.
  intros Hs. unfold JS.to_uint32.
  rewrite (Z.mod_small s (2 ^ 32)) by lia. apply Z.mod_small. lia.
Qed.

Lemma shr_testbit (a s n : Z) :
  0 <= s < 32 -> 0 <= n -> n + s < 32 ->
  Z.testbit (JS.shr a s) n = Z.testbit a (n + s).
Proof.
  intros Hs Hn Hns. unfold JS.shr.
  rewrite shift_count, Z.shiftr_spec, to_int32_testbit by lia. done.
Qed.

Lemma ushr_testbit (a s n : Z) :
  0 <= s < 32 -> 0 <= n ->
  Z.testbit (JS.ushr a s) n = (n + s <? 32) && Z.testbit a (n + s).
Proof.
  intros Hs Hn. unfold JS.ushr.
  rewrite shift_count, Z.shiftr_spec, to_uint32_testbit by lia. done.
Qed.

Lemma ushr_range (a s : Z) : 0 <= s < 32 -> 0 <= JS.ushr a s < 2 ^ 32.
Proof.
  intros Hs. unfold JS.ushr. rewrite shift_count by lia.
  unfold JS.to_uint32.
  pose proof (Z.mod_pos_bound a (2 ^ 32) ltac:(lia)) as Hm.
  rewrite Z.shiftr_div_pow2 by lia.
  split.
  - apply Z.div_pos; lia.
  - apply Z.div_lt_upper_bound; [lia|].
    assert (1 <= 2 ^ s) by (apply (Z.pow_le_mono_r 2 0 s); lia). nia.
Qed.

(** Bit [n] of a byte mask placed at bit [s]. *)
Lemma mask_testbit (s n : Z) :
  0 <= s -> 0 <= n < 8 -> Z.testbit (Z.shiftl 255 s) (n + s) = true.
Proof.
  intros Hs Hn. rewrite Z.shiftl_spec by lia.
  replace (n + s - s) with n by lia.
  change 255 with (Z.ones 8). apply Z.ones_spec_low. lia.
Qed.

(** The byte a signed shift extracts: [(value & (0xFF << s)) >> s]. *)
Lemma byte_shr (value s : Z) :
  0 <= s -> s + 8 < 32 ->
  JS.to_uint8 (JS.shr (JS.and value (Z.shiftl 255 s)) s)
  = value / 2 ^ s mod 256.
Proof.
  intros Hs Hs8. apply Z.bits_inj'. intros n Hn.
  rewrite to_uint8_testbit by lia.
  change 256 with (2 ^ 8).
  destruct (Z.ltb_spec n 8); simpl.
  - rewrite Z.mod_pow2_bits_low by lia.
    rewrite <- Z.shiftr_div_pow2, Z.shiftr_spec by lia.
    rewrite shr_testbit, and_testbit, mask_testbit by lia.
    apply andb_true_r.
  - rewrite Z.mod_pow2_bits_high by lia. done.
Qed.

(** The byte the unsigned shift extracts: [(value & 0xFF000000) >>> 24]. *)
Lemma byte_ushr (value : Z) :
  JS.to_uint8 (JS.ushr (JS.and value (Z.shiftl 255 24)) 24)
  = value / 2 ^ 24 mod 256.
Proof.
  apply Z.bits_inj'. intros n Hn.
  rewrite to_uint8_testbit by lia.
  change 256 with (2 ^ 8).
  destruct (Z.ltb_spec n 8); simpl.
  - rewrite Z.mod_pow2_bits_low by lia.
    rewrite <- Z.shiftr_div_pow2, Z.shiftr_spec by lia.
    rewrite ushr_testbit, and_testbit, mask_testbit by lia.
    destruct (Z.ltb_spec (n + 24) 32); [|lia]. simpl. apply andb_true_r.
  - rewrite Z.mod_pow2_bits_high by lia. done.
Qed.

Lemma byte_low (value : Z) :
  JS.to_uint8 (JS.and value 255) = value mod 256.
Proof.
  apply Z.bits_inj'. intros n Hn.
  rewrite to_uint8_testbit by lia.
  change 256 with (2 ^ 8).
  destruct (Z.ltb_spec n 8); simpl.
  - rewrite Z.mod_pow2_bits_low by lia.
    rewrite and_testbit by lia.
    pose proof (mask_testbit 0 n ltac:(lia) ltac:(lia)) as Hm.
    rewrite Z.add_0_r in Hm. change (Z.shiftl 255 0) with 255 in Hm.
    rewrite Hm. apply andb_true_r.
  - rewrite Z.mod_pow2_bits_high by lia. done.
Qed.

End Bits.

(** ** The field writers as byte lists *)

Section Writers.

Lemma byte1 (value : Z) :
  JS.to_uint8 (JS.shr (JS.and value 65280) 8) = value / 256 mod 256.
Proof. apply (byte_shr value 8); lia. Qed.

Lemma byte2 (value : Z) :
  JS.to_uint8 (JS.shr (JS.and value 16711680) 16) = value / 65536 mod 256.
Proof. apply (byte_shr value 16); lia. Qed.

Lemma byte3 (value : Z) :
  JS.to_uint8 (JS.ushr (JS.and value 4278190080) 24) = value / 16777216 mod 256.
Proof. apply (byte_ushr value). Qed.

Lemma length_write4B (arr : list Z) (start_i : nat) (value : Z) :
  length (write4B arr start_i value) = length arr.
Proof. unfold write4B, JS.u8_store. by rewrite !length_insert. Qed.

Lemma length_write2B (arr : list Z) (start_i : nat) (value : Z) :
  length (write2B arr start_i value) = length arr.
Proof. unfold write2B, JS.u8_store. by rewrite !length_insert. Qed.

Lemma length_u8_store (arr : list Z) (i : nat) (v : Z) :
  length (JS.u8_store arr i v) = length arr.
Proof. unfold JS.u8_store. by rewrite length_insert. Qed.

(** Positions outside the written range keep their byte. *)
Lemma write4B_frame (arr : list Z) (start_i j : nat) (value : Z) :
  (j < start_i \/ start_i + 4 <= j)%nat ->
  write4B arr start_i value !! j = arr !! j.
Proof.
  intros Hj. unfold write4B, JS.u8_store.
  rewrite !list_lookup_insert_ne by lia. done.
Qed.

Lemma write2B_frame (arr : list Z) (start_i j : nat) (value : Z) :
  (j < start_i \/ start_i + 2 <= j)%nat ->
  write2B arr start_i value !! j = arr !! j.
Proof.
  intros Hj. unfold write2B, JS.u8_store.
  rewrite !list_lookup_insert_ne by lia. done.
Qed.

(** The bytes written, one position at a time. *)
Lemma write4B_at (arr : list Z) (start_i k : nat) (value : Z) :
  (start_i + 4 <= length arr)%nat -> (k < 4)%nat ->
  write4B arr start_i value !! (start_i + k)%nat
  = Some (value / 256 ^ Z.of_nat k mod 256).
Proof.
  intros Hlen Hk. unfold write4B, JS.u8_store.
  destruct k as [|[|[|[|k]]]]; [| | | |lia].
  - rewrite Nat.add_0_r, !list_lookup_insert_ne by lia.
    rewrite list_lookup_insert_eq by lia.
    rewrite byte_low. by rewrite Z.div_1_r.
  - rewrite !list_lookup_insert_ne by lia.
    rewrite list_lookup_insert_eq by (rewrite !length_insert; lia).
    by rewrite byte1.
  - rewrite !list_lookup_insert_ne by lia.
    rewrite list_lookup_insert_eq by (rewrite !length_insert; lia).
    by rewrite byte2.
  - rewrite list_lookup_insert_eq by (rewrite !length_insert; lia).
    by rewrite byte3.
Qed.

Lemma write2B_at (arr : list Z) (start_i k : nat) (value : Z) :
  (start_i + 2 <= length arr)%nat -> (k < 2)%nat ->
  write2B arr start_i value !! (start_i + k)%nat
  = Some (value / 256 ^ Z.of_nat k mod 256).
Proof.
  intros Hlen Hk. unfold write2B, JS.u8_store.
  destruct k as [|[|k]]; [| |lia].
  - rewrite Nat.add_0_r, !list_lookup_insert_ne by lia.
    rewrite list_lookup_insert_eq by lia.
    rewrite byte_low. by rewrite Z.div_1_r.
  - rewrite list_lookup_insert_eq by (rewrite !length_insert; lia).
    by rewrite byte1.
Qed.

End Writers.

(** C7. For a value in [0, 2^32) and a buffer that holds the whole field,
    [write4B] stores byte [k] of the value (floor(value / 256^k) mod 256) at
    [start_i + k] for k = 0..3 and [write2B] does so for k = 0..1; every other
    position keeps its byte and the length of the buffer is unchanged. *)
Theorem writers_little_endian (arr : list Z) (start_i : nat) (value : Z) :
  0 <= value < 2 ^ 32 ->
  ((start_i + 4 <= length arr)%nat ->
     (forall k, (k < 4)%nat ->
        write4B arr start_i value !! (start_i + k)%nat
        = Some (value / 256 ^ Z.of_nat k mod 256)) /\
     (forall j, (j < start_i \/ start_i + 4 <= j)%nat ->
        write4B arr start_i value !! j = arr !! j) /\
     length (write4B arr start_i value) = length arr) /\
  ((start_i + 2 <= length arr)%nat ->
     (forall k, (k < 2)%nat ->
        write2B arr start_i value !! (start_i + k)%nat
        = Some (value / 256 ^ Z.of_nat k mod 256)) /\
     (forall j, (j < start_i \/ start_i + 2 <= j)%nat ->
        write2B arr start_i value !! j = arr !! j) /\
     length (write2B arr start_i value) = length arr).
Proof.
  intros _. split; intros Hlen; repeat split.
  - intros k Hk. by apply write4B_at.
  - intros j Hj. by apply write4B_frame.
  - apply length_write4B.
  - intros k Hk. by apply write2B_at.
  - intros j Hj. by apply write2B_frame.
  - apply length_write2B.
Qed.

Lemma writers_little_endian_witness :
  write4B [9; 9; 0; 0; 0; 0; 9; 9] 2 0x04034B50 !! 3%nat = Some 0x4B /\
  write2B [9; 9; 0; 0; 0; 0; 9; 9] 2 0x04034B50 !! 6%nat = Some 9.
Proof.
  pose proof (writers_little_endian [9; 9; 0; 0; 0; 0; 9; 9] 2 0x04034B50
                ltac:(lia)) as [H4 H2].
  split.
  - destruct (H4 ltac:(simpl; lia)) as [Hat _].
    exact (Hat 1%nat ltac:(lia)).
  - destruct (H2 ltac:(simpl; lia)) as (_ & Hframe & _).
    exact (Hframe 6%nat ltac:(lia)).
Defined.

(** ** The checksum *)

(** Two loops over the same list that keep a relation between their
    accumulators. *)
Lemma fold_left_related {A B C : Type} (f : A -> B -> A) (g : C -> B -> C)
    (P : B -> Prop) (R : A -> C -> Prop) :
  (forall a c b, P b -> R a c -> R (f a b) (g c b)) ->
  forall l a c, Forall P l -> R a c -> R (fold_left f l a) (fold_left g l c).
Proof.
  intros Hstep l. induction l as [|b l IH]; intros a c Hl HR; [done|].
  inversion Hl as [|? ? Hb Hrest]; subst. simpl. apply IH; [done|].
  by apply Hstep.
Qed.

Section Checksum.

Lemma to_uint32_small (x : Z) : 0 <= x < 2 ^ 32 -> JS.to_uint32 x = x.
Proof. intros Hx. unfold JS.to_uint32. apply Z.mod_small. lia. Qed.

Lemma to_uint32_xor (a b : Z) :
  JS.to_uint32 (JS.xor a b) = Z.lxor (JS.to_uint32 a) (JS.to_uint32 b).
Proof.
  apply Z.bits_inj'. intros n Hn.
  rewrite Z.lxor_spec, !to_uint32_testbit by lia.
  destruct (Z.ltb_spec n 32); simpl; [|done].
  by rewrite xor_testbit by lia.
Qed.

Lemma to_uint32_not (a : Z) :
  JS.to_uint32 (JS.not a) = Z.lxor (JS.to_uint32 a) 0xFFFFFFFF.
Proof.
  apply Z.bits_inj'. intros n Hn.
  rewrite Z.lxor_spec, !to_uint32_testbit by lia.
  change 0xFFFFFFFF with (Z.ones 32).
  destruct (Z.ltb_spec n 32); simpl.
  - rewrite not_testbit, Z.ones_spec_low by lia. by destruct (Z.testbit a n).
  - by rewrite Z.ones_spec_high by lia.
Qed.

Lemma ushr_shiftr (a s : Z) :
  0 <= s < 32 -> JS.ushr a s = Z.shiftr (JS.to_uint32 a) s.
Proof. intros Hs. unfold JS.ushr. by rewrite shift_count. Qed.

(** [x & 1] is the low bit of [x]. *)
Lemma and_1 (x : Z) : JS.and x 1 = Z.b2z (Z.testbit x 0).
Proof.
  unfold JS.and. change (JS.to_int32 1) with (Z.ones 1).
  rewrite Z.land_ones by lia. change (2 ^ 1) with 2.
  rewrite <- Z.bit0_mod, to_int32_testbit by lia.
  by destruct (Z.testbit x 0).
Qed.

Lemma truthy_low_bit (c crc : Z) :
  JS.truthy (JS.and (JS.xor c crc) 1)
  = Z.testbit (Z.lxor (JS.to_uint32 crc) c) 0.
Proof.
  rewrite and_1, xor_testbit, Z.lxor_spec, to_uint32_testbit by lia.
  change (0 <? 32) with true. unfold JS.truthy.
  destruct (Z.testbit c 0), (Z.testbit crc 0); reflexivity.
Qed.

(** The inner loop keeps the register of the reference: the byte is
    consumed one bit at a time instead of being XORed in at once. *)
Lemma crc_bits_reference (j : nat) :
  forall c crc, (j <= 32)%nat -> 0 <= c < 2 ^ Z.of_nat j ->
    JS.to_uint32 (crc_bits j c crc)
    = Nat.iter j reference_shift (Z.lxor (JS.to_uint32 crc) c).
Proof.
  induction j as [|j IH]; intros c crc Hj Hc.
  - simpl in *. assert (c = 0) as -> by lia. by rewrite Z.lxor_0_r.
  - rewrite Nat.iter_succ_r. cbn [crc_bits]. cbv zeta.
    assert (Hpow : 2 ^ Z.of_nat (S j) <= 2 ^ 32)
      by (apply Z.pow_le_mono_r; lia).
    assert (Hc1 : JS.ushr c 1 = Z.shiftr c 1).
    { rewrite ushr_shiftr, to_uint32_small by lia. done. }
    rewrite Nat2Z.inj_succ, Z.pow_succ_r in Hc by lia.
    assert (Hc1r : 0 <= Z.shiftr c 1 < 2 ^ Z.of_nat j).
    { rewrite Z.shiftr_div_pow2 by lia. change (2 ^ 1) with 2.
      split; [apply Z.div_pos; lia|apply Z.div_lt_upper_bound; lia]. }
    rewrite Hc1, IH by (done || lia). f_equal.
    unfold reference_shift. rewrite <- truthy_low_bit.
    rewrite Z.shiftr_lxor.
    destruct (JS.truthy _).
    + rewrite to_uint32_xor, ushr_shiftr by lia.
      rewrite (to_uint32_small (Z.shiftr _ 1)).
      2:{ rewrite <- ushr_shiftr by lia. apply ushr_range. lia. }
      change (JS.to_uint32 3988292384) with crc32_polynomial.
      rewrite !Z.lxor_assoc. f_equal. apply Z.lxor_comm.
    + rewrite ushr_shiftr by lia.
      rewrite (to_uint32_small (Z.shiftr _ 1)); [done|].
      rewrite <- ushr_shiftr by lia. apply ushr_range. lia.
Qed.

Lemma crc_byte_reference (c crc : Z) :
  is_byte c ->
  JS.to_uint32 (crc_bits 8 c crc) = reference_byte (JS.to_uint32 crc) c.
Proof.
  intros Hc. unfold reference_byte, is_byte in *.
  apply crc_bits_reference; [lia|].
  replace (Z.of_nat 8) with 8 by lia. lia.
Qed.

Lemma crc_bytes_reference (data : list Z) (crc : Z) :
  Forall is_byte data ->
  JS.to_uint32 (crc_bytes data crc)
  = fold_left reference_byte data (JS.to_uint32 crc).
Proof.
  intros Hdata. unfold crc_bytes.
  apply (fold_left_related _ reference_byte is_byte
           (fun a r => JS.to_uint32 a = r)); [|done|done].
  intros a r c Hc <-. by apply crc_byte_reference.
Qed.

Lemma calcCRC32_unfold (data : list Z) :
  calcCRC32 data
  = Z.lxor (JS.to_uint32 (crc_bytes data 0xFFFFFFFF)) 0xFFFFFFFF.
Proof.
  unfold calcCRC32. cbv zeta.
  rewrite ushr_shiftr, Z.shiftr_0_r by lia. apply to_uint32_not.
Qed.

Lemma calcCRC32_range (data : list Z) : 0 <= calcCRC32 data < 2 ^ 32.
Proof. unfold calcCRC32. apply ushr_range. lia. Qed.

End Checksum.

(** C3. [calcCRC32] is the reflected CRC-32 of polynomial 0xEDB88320 as the
    specification words it, on every sequence of bytes; it gives 0 on the
    empty sequence and 0x414FA339 on the 8-bit text "The quick brown fox
    jumps over the lazy dog". *)
Theorem calcCRC32_is_reference :
  (forall data, Forall is_byte data -> calcCRC32 data = crc32_reference data) /\
  calcCRC32 [] = 0 /\
  calcCRC32 fox = 0x414FA339.
Proof.
  split; [|split].
  - intros data Hdata. rewrite calcCRC32_unfold, crc_bytes_reference by done.
    reflexivity.
  - vm_compute. reflexivity.
  - vm_compute. reflexivity.
Qed.

Lemma calcCRC32_is_reference_witness :
  calcCRC32 [104; 105] = crc32_reference [104; 105].
Proof.
  apply (proj1 calcCRC32_is_reference).
  repeat constructor; unfold is_byte; lia.
Defined.

(** ** The headers, byte by byte *)

Section Headers.

Lemma le_bytes_4 (v : Z) :
  le_bytes 4 v
  = [v mod 256; v / 256 mod 256; v / 65536 mod 256; v / 16777216 mod 256].
Proof.
  cbn [le_bytes]. rewrite !Z.div_div by lia. reflexivity.
Qed.

Lemma le_bytes_2 (v : Z) : le_bytes 2 v = [v mod 256; v / 256 mod 256].
Proof. reflexivity. Qed.

Ltac header_bytes :=
  cbv [write4B write2B JS.u8_store JS.new_buffer replicate insert list_insert
       Nat.add];
  rewrite ?byte_low, ?byte1, ?byte2, ?byte3, ?le_bytes_4, ?le_bytes_2;
  reflexivity.

Lemma local_header_bytes (file : Entry.file) :
  local_header file
  = if Entry.is_dir file then
      [0x50; 0x4B; 3; 4; 20; 0; 0; 0; 0; 0; 0; 0; 0; 0;
       0; 0; 0; 0; 0; 0; 0; 0; 0; 0; 0; 0]
      ++ le_bytes 2 (str_length (Entry.name file)) ++ [0; 0]
    else
      [0x50; 0x4B; 3; 4; 10; 0; 0; 0; 0; 0; 0; 0; 0; 0]
      ++ le_bytes 4 (Entry.crc file)
      ++ le_bytes 4 (byteLength (Entry.data file))
      ++ le_bytes 4 (byteLength (Entry.data file))
      ++ le_bytes 2 (str_length (Entry.name file)) ++ [0; 0].
Proof.
  unfold local_header. destruct (Entry.is_dir file); header_bytes.
Qed.

Lemma central_header_bytes (file : Entry.file) :
  central_header file
  = if Entry.is_dir file then
      [0x50; 0x4B; 1; 2; 63; 3; 20; 0; 0; 0; 0; 0; 0; 0; 0; 0;
       0; 0; 0; 0; 0; 0; 0; 0; 0; 0; 0; 0]
      ++ le_bytes 2 (str_length (Entry.name file))
      ++ [0; 0; 0; 0; 0; 0; 0; 0; 0; 0]
      ++ le_bytes 2 16877
      ++ le_bytes 4 (offset_number (Entry.local_header_offset file))
    else
      [0x50; 0x4B; 1; 2; 63; 3; 10; 0; 0; 0; 0; 0; 0; 0; 0; 0]
      ++ le_bytes 4 (Entry.crc file)
      ++ le_bytes 4 (byteLength (Entry.data file))
      ++ le_bytes 4 (byteLength (Entry.data file))
      ++ le_bytes 2 (str_length (Entry.name file))
      ++ [0; 0; 0; 0; 0; 0; 0; 0; 0; 0]
      ++ le_bytes 2 33188
      ++ le_bytes 4 (offset_number (Entry.local_header_offset file)).
Proof.
  unfold central_header. destruct (Entry.is_dir file); header_bytes.
Qed.

Lemma end_record_bytes (count offset_count central_dir_offset : Z) :
  end_record count offset_count central_dir_offset
  = [0x50; 0x4B; 5; 6; 0; 0; 0; 0]
    ++ le_bytes 2 count ++ le_bytes 2 count
    ++ le_bytes 4 (offset_count - central_dir_offset)
    ++ le_bytes 4 central_dir_offset ++ [0; 0].
Proof. unfold end_record. header_bytes. Qed.

Lemma length_local_header (file : Entry.file) :
  length (local_header file) = 30%nat.
Proof.
  unfold local_header.
  destruct (Entry.is_dir file);
    rewrite ?length_write4B, ?length_write2B, ?length_u8_store,
      ?length_write4B, ?length_write2B; reflexivity.
Qed.

Lemma length_central_header (file : Entry.file) :
  length (central_header file) = 46%nat.
Proof.
  unfold central_header.
  destruct (Entry.is_dir file);
    rewrite ?length_write4B, ?length_write2B, ?length_u8_store,
      ?length_write4B, ?length_write2B, ?length_u8_store,
      ?length_write4B, ?length_write2B; reflexivity.
Qed.

Lemma length_end_record (count offset_count central_dir_offset : Z) :
  length (end_record count offset_count central_dir_offset) = 22%nat.
Proof.
  unfold end_record.
  rewrite ?length_write4B, ?length_write2B, ?length_write4B. reflexivity.
Qed.

(** A little-endian field of [n] bytes holds its value modulo 256^n. *)
Lemma le_value_le_bytes (n : nat) :
  forall v, le_value (le_bytes n v) = v mod 256 ^ Z.of_nat n.
Proof.
  induction n as [|n IH]; intros v.
  - cbn [le_bytes le_value]. by rewrite Z.mod_1_r.
  - cbn [le_bytes le_value]. rewrite IH.
    rewrite Nat2Z.inj_succ, Z.pow_succ_r by lia.
    rewrite (Z.rem_mul_r v 256 (256 ^ Z.of_nat n)) by lia. lia.
Qed.

End Headers.

(** ** The loops in closed form *)

Section Loops.

Lemma total_app (size : Entry.file -> Z) (l1 l2 : list Entry.file) :
  total size (l1 ++ l2) = total size l1 + total size l2.
Proof. induction l1 as [|f l1 IH]; simpl; lia. Qed.

Lemma local_step_eq (st : zip_state) (file : Entry.file) :
  local_step st file
  = ({| zip_data := zip_data st ++ local_parts file;
        offset_count := offset_count st + local_size file |},
     Entry.set_local_header_offset file (offset_count st)).
Proof.
  unfold local_step, push, local_parts, local_size, byteLength. simpl.
  rewrite length_local_header, <- !app_assoc. simpl.
  do 2 f_equal. lia.
Qed.

Lemma local_files_eq (files : list Entry.file) :
  forall st,
    local_files st files
    = ({| zip_data := zip_data st ++ concat (map local_parts files);
          offset_count := offset_count st + total local_size files |},
       assign_offsets (offset_count st) files).
Proof.
  induction files as [|file rest IH]; intros st.
  - simpl. rewrite app_nil_r, Z.add_0_r. by destruct st.
  - cbn [local_files]. rewrite local_step_eq, IH. simpl.
    rewrite <- app_assoc. do 2 f_equal. lia.
Qed.

Lemma central_step_eq (st : zip_state) (file : Entry.file) :
  central_step st file
  = {| zip_data := zip_data st ++ central_parts file;
       offset_count := offset_count st + central_size file |}.
Proof.
  unfold central_step, push, central_parts, central_size, byteLength. simpl.
  rewrite length_central_header, <- !app_assoc. simpl. f_equal. lia.
Qed.

Lemma central_directory_eq (files : list Entry.file) :
  forall st,
    central_directory st files
    = {| zip_data := zip_data st ++ concat (map central_parts files);
         offset_count := offset_count st + total central_size files |}.
Proof.
  unfold central_directory.
  induction files as [|file rest IH]; intros st.
  - simpl. rewrite app_nil_r, Z.add_0_r. by destruct st.
  - cbn [fold_left]. rewrite IH, central_step_eq. simpl.
    rewrite <- app_assoc. f_equal. lia.
Qed.

Lemma length_assign_offsets (files : list Entry.file) :
  forall o, length (assign_offsets o files) = length files.
Proof. induction files as [|f r IH]; intros o; simpl; [done|]. by rewrite IH. Qed.

Lemma central_size_assign_offsets (files : list Entry.file) :
  forall o, total central_size (assign_offsets o files)
            = total central_size files.
Proof. induction files as [|f r IH]; intros o; simpl; [done|]. by rewrite IH. Qed.

Lemma phase1_eq (files : list Input.file) :
  phase1 files
  = ({| zip_data := concat (map local_parts (map complete files));
        offset_count := total local_size (map complete files) |},
     assign_offsets 0 (map complete files)).
Proof. unfold phase1. by rewrite local_files_eq. Qed.

Lemma phase2_eq (files : list Input.file) :
  phase2 files
  = {| zip_data :=
         concat (map local_parts (map complete files))
         ++ concat (map central_parts (assign_offsets 0 (map complete files)));
       offset_count :=
         total local_size (map complete files)
         + total central_size (map complete files) |}.
Proof.
  unfold phase2. rewrite phase1_eq, central_directory_eq. simpl.
  by rewrite central_size_assign_offsets.
Qed.

Lemma createZIP_parts_eq (files : list Input.file) :
  createZIP_parts files
  = concat (map local_parts (map complete files))
    ++ concat (map central_parts (assign_offsets 0 (map complete files)))
    ++ [BufferPart
          (end_record (Z.of_nat (length files))
             (total local_size (map complete files)
              + total central_size (map complete files))
             (total local_size (map complete files)))].
Proof.
  unfold createZIP_parts. rewrite phase1_eq, central_directory_eq. simpl.
  rewrite central_size_assign_offsets, length_assign_offsets, length_map.
  by rewrite <- app_assoc.
Qed.

End Loops.

(** ** Where the parts of an entry sit in [zip_data] *)

Section Layout.

Lemma lookup_concat_chunks {A B : Type} (f : A -> list B) (n : nat)
    (l : list A) :
  (forall a, length (f a) = n) ->
  forall i j x, l !! i = Some x -> (j < n)%nat ->
    concat (map f l) !! (n * i + j)%nat = f x !! j.
Proof.
  intros Hn. induction l as [|a l IH]; intros i j x Hi Hj; [done|].
  destruct i as [|i]; simpl in *.
  - injection Hi as ->. rewrite Nat.mul_0_r. simpl.
    apply lookup_app_l. rewrite Hn. lia.
  - rewrite lookup_app_r by (rewrite Hn; nia).
    rewrite Hn. replace (n * S i + j - n)%nat with (n * i + j)%nat by nia.
    by apply IH.
Qed.

Lemma take_concat_chunks {A B : Type} (f : A -> list B) (n : nat)
    (l : list A) :
  (forall a, length (f a) = n) ->
  forall i, take (n * i) (concat (map f l)) = concat (map f (take i l)).
Proof.
  intros Hn. induction l as [|a l IH]; intros i.
  - simpl. by rewrite !take_nil.
  - destruct i as [|i]; simpl.
    + by rewrite Nat.mul_0_r.
    + replace (n * S i)%nat with (length (f a) + n * i)%nat
        by (rewrite Hn; lia).
      by rewrite take_app_add, IH.
Qed.

Lemma length_concat_chunks {A B : Type} (f : A -> list B) (n : nat)
    (l : list A) :
  (forall a, length (f a) = n) ->
  length (concat (map f l)) = (n * length l)%nat.
Proof.
  intros Hn. induction l as [|a l IH]; simpl; [lia|].
  rewrite length_app, Hn, IH. lia.
Qed.

Lemma assign_offsets_lookup (files : list Entry.file) :
  forall o i file, files !! i = Some file ->
    assign_offsets o files !! i
    = Some (Entry.set_local_header_offset file
              (o + total local_size (take i files))).
Proof.
  induction files as [|f rest IH]; intros o i file Hi; [done|].
  destruct i as [|i]; simpl in *.
  - injection Hi as ->. by rewrite Z.add_0_r.
  - rewrite (IH _ _ _ Hi). do 2 f_equal. lia.
Qed.

Lemma local_parts_at (files : list Input.file) (i j : nat)
    (file : Input.file) :
  files !! i = Some file -> (j < 3)%nat ->
  createZIP_parts files !! (3 * i + j)%nat
  = local_parts (complete file) !! j.
Proof.
  intros Hi Hj. rewrite createZIP_parts_eq.
  assert (Hc : map complete files !! i = Some (complete file))
    by (by rewrite list_lookup_fmap, Hi).
  rewrite lookup_app_l.
  - by apply (lookup_concat_chunks local_parts 3).
  - rewrite (length_concat_chunks local_parts 3) by done.
    apply lookup_lt_Some in Hc. lia.
Qed.

Lemma central_parts_at (files : list Input.file) (i j : nat)
    (file : Input.file) :
  files !! i = Some file -> (j < 2)%nat ->
  createZIP_parts files !! (3 * length files + 2 * i + j)%nat
  = central_parts
      (Entry.set_local_header_offset (complete file)
         (total local_size (take i (map complete files)))) !! j.
Proof.
  intros Hi Hj. rewrite createZIP_parts_eq.
  assert (Hc : map complete files !! i = Some (complete file))
    by (by rewrite list_lookup_fmap, Hi).
  pose proof (assign_offsets_lookup _ 0 _ _ Hc) as Ha.
  rewrite Z.add_0_l in Ha.
  rewrite lookup_app_r;
    rewrite (length_concat_chunks local_parts 3), length_map by done; [|lia].
  replace (3 * length files + 2 * i + j - 3 * length files)%nat
    with (2 * i + j)%nat by lia.
  rewrite lookup_app_l.
  - by apply (lookup_concat_chunks central_parts 2).
  - rewrite (length_concat_chunks central_parts 2) by done.
    apply lookup_lt_Some in Ha. lia.
Qed.

Lemma local_header_at_eq (files : list Input.file) (i : nat)
    (file : Input.file) :
  files !! i = Some file ->
  local_header_at files i = Some (local_header (complete file)).
Proof.
  intros Hi. unfold local_header_at.
  pose proof (local_parts_at files i 0 file Hi ltac:(lia)) as H.
  rewrite Nat.add_0_r in H. by rewrite H.
Qed.

Lemma central_header_at_eq (files : list Input.file) (i : nat)
    (file : Input.file) :
  files !! i = Some file ->
  central_header_at files i
  = Some (central_header
            (Entry.set_local_header_offset (complete file)
               (total local_size (take i (map complete files))))).
Proof.
  intros Hi. unfold central_header_at.
  pose proof (central_parts_at files i 0 file Hi ltac:(lia)) as H.
  rewrite Nat.add_0_r in H. by rewrite H.
Qed.

Lemma recorded_offset_eq (files : list Input.file) (i : nat)
    (file : Input.file) :
  files !! i = Some file ->
  recorded_offset files i
  = Some (total local_size (take i (map complete files))).
Proof.
  intros Hi. unfold recorded_offset. rewrite phase1_eq. simpl.
  assert (Hc : map complete files !! i = Some (complete file))
    by (by rewrite list_lookup_fmap, Hi).
  rewrite (assign_offsets_lookup _ 0 _ _ Hc).
  cbn [Entry.local_header_offset Entry.set_local_header_offset].
  by rewrite Z.add_0_l.
Qed.

End Layout.

(** ** The fields of the headers *)

Section Fields.

Lemma field_le_bytes (n : nat) (v : Z) (rest : list Z) :
  le_value (take n (le_bytes n v ++ rest)) = v mod 256 ^ Z.of_nat n.
Proof.
  assert (Hlen : forall m w, length (le_bytes m w) = m).
  { induction m as [|m IH]; intros w; simpl; [done|]. by rewrite IH. }
  rewrite take_app_length' by (symmetry; apply Hlen). apply le_value_le_bytes.
Qed.

Lemma field_le_bytes_end (n : nat) (v : Z) :
  le_value (take n (le_bytes n v)) = v mod 256 ^ Z.of_nat n.
Proof.
  rewrite <- (app_nil_r (le_bytes n v)). apply field_le_bytes.
Qed.

Ltac read_field :=
  unfold field; cbn [app skipn];
  first [ apply field_le_bytes | apply field_le_bytes_end | reflexivity ].

(** The local header. *)
Lemma local_header_crc (file : Entry.file) :
  field (local_header file) 14 4
  = if Entry.is_dir file then 0 else Entry.crc file mod 2 ^ 32.
Proof.
  rewrite local_header_bytes. destruct (Entry.is_dir file); read_field.
Qed.

Lemma local_header_compressed_size (file : Entry.file) :
  field (local_header file) 18 4
  = if Entry.is_dir file then 0
    else byteLength (Entry.data file) mod 2 ^ 32.
Proof.
  rewrite local_header_bytes. destruct (Entry.is_dir file); read_field.
Qed.

Lemma local_header_uncompressed_size (file : Entry.file) :
  field (local_header file) 22 4
  = if Entry.is_dir file then 0
    else byteLength (Entry.data file) mod 2 ^ 32.
Proof.
  rewrite local_header_bytes. destruct (Entry.is_dir file); read_field.
Qed.

Lemma local_header_name_length (file : Entry.file) :
  field (local_header file) 26 2 = str_length (Entry.name file) mod 2 ^ 16.
Proof.
  rewrite local_header_bytes. destruct (Entry.is_dir file); read_field.
Qed.

Lemma local_header_signature (file : Entry.file) :
  field (local_header file) 0 4 = 0x04034B50.
Proof.
  rewrite local_header_bytes. destruct (Entry.is_dir file); read_field.
Qed.

Lemma local_header_version (file : Entry.file) :
  field (local_header file) 4 2 = if Entry.is_dir file then 20 else 10.
Proof.
  rewrite local_header_bytes. destruct (Entry.is_dir file); read_field.
Qed.

(** The central header. *)
Lemma central_header_crc (file : Entry.file) :
  field (central_header file) 16 4
  = if Entry.is_dir file then 0 else Entry.crc file mod 2 ^ 32.
Proof.
  rewrite central_header_bytes. destruct (Entry.is_dir file); read_field.
Qed.

Lemma central_header_compressed_size (file : Entry.file) :
  field (central_header file) 20 4
  = if Entry.is_dir file then 0
    else byteLength (Entry.data file) mod 2 ^ 32.
Proof.
  rewrite central_header_bytes. destruct (Entry.is_dir file); read_field.
Qed.

Lemma central_header_uncompressed_size (file : Entry.file) :
  field (central_header file) 24 4
  = if Entry.is_dir file then 0
    else byteLength (Entry.data file) mod 2 ^ 32.
Proof.
  rewrite central_header_bytes. destruct (Entry.is_dir file); read_field.
Qed.

Lemma central_header_name_length (file : Entry.file) :
  field (central_header file) 28 2 = str_length (Entry.name file) mod 2 ^ 16.
Proof.
  rewrite central_header_bytes. destruct (Entry.is_dir file); read_field.
Qed.

Lemma central_header_external_attributes (file : Entry.file) :
  field (central_header file) 38 4
  = (if Entry.is_dir file then 16877 else 33188) * 2 ^ 16.
Proof.
  rewrite central_header_bytes. destruct (Entry.is_dir file); read_field.
Qed.

Lemma central_header_external_low (file : Entry.file) :
  field (central_header file) 38 2 = 0.
Proof.
  rewrite central_header_bytes. destruct (Entry.is_dir file); read_field.
Qed.

Lemma central_header_external_high (file : Entry.file) :
  field (central_header file) 40 2
  = if Entry.is_dir file then 16877 else 33188.
Proof.
  rewrite central_header_bytes. destruct (Entry.is_dir file); read_field.
Qed.

Lemma central_header_offset (file : Entry.file) :
  field (central_header file) 42 4
  = offset_number (Entry.local_header_offset file) mod 2 ^ 32.
Proof.
  rewrite central_header_bytes. destruct (Entry.is_dir file); read_field.
Qed.

(** The end record. *)
Lemma end_record_count_disk (count oc cdo : Z) :
  field (end_record count oc cdo) 8 2 = count mod 2 ^ 16.
Proof. rewrite end_record_bytes. read_field. Qed.

Lemma end_record_count_total (count oc cdo : Z) :
  field (end_record count oc cdo) 10 2 = count mod 2 ^ 16.
Proof. rewrite end_record_bytes. read_field. Qed.

Lemma end_record_size (count oc cdo : Z) :
  field (end_record count oc cdo) 12 4 = (oc - cdo) mod 2 ^ 32.
Proof. rewrite end_record_bytes. read_field. Qed.

Lemma end_record_offset (count oc cdo : Z) :
  field (end_record count oc cdo) 16 4 = cdo mod 2 ^ 32.
Proof. rewrite end_record_bytes. read_field. Qed.

End Fields.

(** ** Directories *)

Lemma ends_with_slash_iff (name : JS.jsstring) :
  ends_with_slash name = true <-> exists pre, name = pre ++ [0x2F].
Proof.
  unfold ends_with_slash, JS.char_at, str_length.
  destruct name as [|u name] using rev_ind.
  - simpl. split; [done|]. intros [pre Hpre]. by destruct pre.
  - clear IHname. rewrite length_app. cbn [length].
    destruct (Z.ltb_spec (Z.of_nat (length name + 1) - 1) 0); [lia|].
    replace (Z.to_nat (Z.of_nat (length name + 1) - 1)) with (length name)
      by lia.
    rewrite list_lookup_middle by done.
    split.
    + intros Hu. apply Z.eqb_eq in Hu. subst u. by exists name.
    + intros [pre Hpre]. apply app_inj_tail in Hpre as [_ ->]. done.
Qed.

(** In the current copy, the directory flag of a normalized entry is true
    exactly when the name of the entry ends with the separator '/' (code
    unit 0x2F). *)
Theorem is_dir_iff_trailing_slash (file : Input.file) :
  Entry.is_dir (complete file) = true
  <-> exists pre, Input.name file = pre ++ [0x2F].
Proof. unfold complete. simpl. apply ends_with_slash_iff. Qed.

(** C6. For a directory entry (name ending in '/'), the CRC-32 field and
    the two size fields are 0 in the local file header and in the
    central-directory header the archive holds for it. *)
Theorem directory_fields_are_zero (files : list Input.file) (i : nat)
    (file : Input.file) :
  files !! i = Some file ->
  (exists pre, Input.name file = pre ++ [0x2F]) ->
  exists lh ch,
    local_header_at files i = Some lh /\
    central_header_at files i = Some ch /\
    field lh 14 4 = 0 /\ field lh 18 4 = 0 /\ field lh 22 4 = 0 /\
    field ch 16 4 = 0 /\ field ch 20 4 = 0 /\ field ch 24 4 = 0.
Proof.
  intros Hi Hdir. apply ends_with_slash_iff in Hdir.
  eexists _, _.
  split; [by apply local_header_at_eq|].
  split; [by apply central_header_at_eq|].
  rewrite local_header_crc, local_header_compressed_size,
    local_header_uncompressed_size, central_header_crc,
    central_header_compressed_size, central_header_uncompressed_size.
  cbn [Entry.is_dir Entry.set_local_header_offset complete].
  rewrite Hdir. done.
Qed.

Lemma directory_fields_are_zero_witness :
  exists lh ch,
    local_header_at folder_with_file 1 = Some lh /\
    central_header_at folder_with_file 1 = Some ch /\
    field lh 14 4 = 0 /\ field lh 18 4 = 0 /\ field lh 22 4 = 0 /\
    field ch 16 4 = 0 /\ field ch 20 4 = 0 /\ field ch 24 4 = 0.
Proof.
  apply (directory_fields_are_zero folder_with_file 1
           {| Input.name := units "folder/"; Input.data := [] |}).
  - reflexivity.
  - exists (units "folder"). reflexivity.
Defined.

(** C8. In the central-directory header of every entry, the 4-byte
    external-file-attributes field at byte 38 holds the UNIX mode in its
    high-order 16 bits, octal 040755 for a directory and octal 100644 for a
    file, and 0 in its low-order 16 bits. *)
Theorem external_attributes_hold_mode (files : list Input.file) (i : nat)
    (file : Input.file) :
  files !! i = Some file ->
  exists ch,
    central_header_at files i = Some ch /\
    length ch = 46%nat /\
    let mode :=
      if Entry.is_dir (complete file)
      then octal [0; 4; 0; 7; 5; 5] else octal [1; 0; 0; 6; 4; 4] in
    field ch 38 4 / 2 ^ 16 = mode /\
    field ch 38 4 mod 2 ^ 16 = 0 /\
    field ch 38 2 = 0 /\
    field ch 40 2 = mode.
Proof.
  intros Hi. eexists. split; [by apply central_header_at_eq|].
  split; [apply length_central_header|].
  rewrite central_header_external_attributes, central_header_external_low,
    central_header_external_high.
  cbn [Entry.is_dir Entry.set_local_header_offset complete].
  destruct (ends_with_slash (Input.name file)); vm_compute; done.
Qed.

Lemma external_attributes_hold_mode_witness :
  exists ch,
    central_header_at folder_with_file 1 = Some ch /\
    length ch = 46%nat /\
    field ch 38 4 / 2 ^ 16 = 16877 /\
    field ch 38 4 mod 2 ^ 16 = 0 /\
    field ch 38 2 = 0 /\
    field ch 40 2 = 16877.
Proof.
  apply (external_attributes_hold_mode folder_with_file 1
           {| Input.name := units "folder/"; Input.data := [] |}).
  reflexivity.
Defined.

(** ** Byte positions in the Blob *)

Section Positions.

Lemma Blob_app (p q : list blob_part) : Blob (p ++ q) = Blob p ++ Blob q.
Proof. unfold Blob. by rewrite map_app, concat_app. Qed.

Lemma Blob_local_parts (file : Entry.file) :
  Blob (local_parts file)
  = local_header file ++ utf8_encode (Entry.name file) ++ Entry.data file.
Proof. unfold Blob, local_parts. simpl. by rewrite app_nil_r. Qed.

Lemma Blob_central_parts (file : Entry.file) :
  Blob (central_parts file)
  = central_header file ++ utf8_encode (Entry.name file).
Proof. unfold Blob, central_parts. simpl. by rewrite app_nil_r. Qed.

Lemma length_Blob_local (files : list Entry.file) :
  Z.of_nat (length (Blob (concat (map local_parts files))))
  = total emitted_local_size files.
Proof.
  induction files as [|f rest IH]; [done|].
  cbn [map concat total fold_right]. fold (total emitted_local_size rest).
  rewrite Blob_app, length_app, Nat2Z.inj_add, IH, Blob_local_parts.
  rewrite !length_app, length_local_header.
  unfold emitted_local_size, byteLength. lia.
Qed.

Lemma length_Blob_central (files : list Entry.file) :
  Z.of_nat (length (Blob (concat (map central_parts files))))
  = total emitted_central_size files.
Proof.
  induction files as [|f rest IH]; [done|].
  cbn [map concat total fold_right]. fold (total emitted_central_size rest).
  rewrite Blob_app, length_app, Nat2Z.inj_add, IH, Blob_central_parts.
  rewrite !length_app, length_central_header.
  unfold emitted_central_size. lia.
Qed.

Lemma emitted_central_assign_offsets (files : list Entry.file) :
  forall o, total emitted_central_size (assign_offsets o files)
            = total emitted_central_size files.
Proof. induction files as [|f r IH]; intros o; simpl; [done|]. by rewrite IH. Qed.

(** The parts before the header of entry [i] are the local parts of the
    entries before it. *)
Lemma parts_before_header (files : list Input.file) (i : nat) :
  (i <= length files)%nat ->
  take (3 * i) (createZIP_parts files)
  = concat (map local_parts (take i (map complete files))).
Proof.
  intros Hi. rewrite createZIP_parts_eq.
  rewrite take_app_le.
  - by apply (take_concat_chunks local_parts 3).
  - rewrite (length_concat_chunks local_parts 3), length_map by done. lia.
Qed.

Lemma local_header_position_eq (files : list Input.file) (i : nat) :
  (i <= length files)%nat ->
  local_header_position files i
  = total emitted_local_size (take i (map complete files)).
Proof.
  intros Hi. unfold local_header_position, part_position.
  rewrite parts_before_header by done. apply length_Blob_local.
Qed.

(** [local_header_position] is where the header of entry [i] begins: the
    30 bytes found there in the Blob are that header. *)
Lemma header_at_position (files : list Input.file) (i : nat)
    (file : Input.file) :
  files !! i = Some file ->
  take 30 (drop (Z.to_nat (local_header_position files i)) (createZIP files))
  = local_header (complete file).
Proof.
  intros Hi. unfold local_header_position, part_position, createZIP.
  rewrite Nat2Z.id.
  pose proof (local_parts_at files i 0 file Hi ltac:(lia)) as Hp.
  rewrite Nat.add_0_r in Hp. cbn [local_parts lookup list_lookup] in Hp.
  rewrite <- (take_drop (3 * i) (createZIP_parts files)) at 2.
  rewrite Blob_app, drop_app_length.
  rewrite (drop_S _ _ _ Hp). unfold Blob. cbn [map concat part_bytes].
  rewrite take_app_length'; [done|]. by rewrite length_local_header.
Qed.

Lemma utf8_encode_ascii (s : JS.jsstring) :
  ascii_string s -> utf8_encode s = s.
Proof.
  unfold utf8_encode. induction 1 as [|u s Hu Hs IH]; [done|].
  cbn [scalar_values].
  unfold is_high_surrogate, is_low_surrogate.
  destruct (Z.leb_spec 0xD800 u); [lia|].
  destruct (Z.leb_spec 0xDC00 u); [lia|]. simpl.
  rewrite IH. unfold utf8_scalar.
  destruct (Z.ltb_spec u 0x80); [done|lia].
Qed.

Lemma emitted_local_ascii (files : list Input.file) :
  Forall ascii_name files ->
  total emitted_local_size (map complete files)
  = total local_size (map complete files).
Proof.
  induction 1 as [|f rest Hf Hrest IH]; [done|].
  cbn [map total fold_right].
  fold (total emitted_local_size (map complete rest)).
  fold (total local_size (map complete rest)). rewrite IH.
  unfold emitted_local_size, local_size, str_length. simpl.
  by rewrite (utf8_encode_ascii _ Hf).
Qed.

Lemma emitted_central_ascii (files : list Input.file) :
  Forall ascii_name files ->
  total emitted_central_size (map complete files)
  = total central_size (map complete files).
Proof.
  induction 1 as [|f rest Hf Hrest IH]; [done|].
  cbn [map total fold_right].
  fold (total emitted_central_size (map complete rest)).
  fold (total central_size (map complete rest)). rewrite IH.
  unfold emitted_central_size, central_size, str_length. simpl.
  by rewrite (utf8_encode_ascii _ Hf).
Qed.

(** With 7-bit names the recorded offset of every entry is the position
    of its local header. *)
Lemma recorded_offset_ascii (files : list Input.file) (i : nat)
    (file : Input.file) :
  Forall ascii_name files ->
  files !! i = Some file ->
  recorded_offset files i = Some (local_header_position files i).
Proof.
  intros Hascii Hi.
  rewrite (recorded_offset_eq _ _ _ Hi).
  rewrite local_header_position_eq
    by (apply lookup_lt_Some in Hi; lia).
  rewrite firstn_map. f_equal. symmetry.
  apply emitted_local_ascii. by apply Forall_take.
Qed.

End Positions.

(** C1, on the input [accented]. The first loop records 31 as the offset of
    the second entry (30 + the [length] 1 of the first name) and the second
    loop writes 31 into its central header, but the first name takes two
    bytes in the Blob: the local header of the second entry begins at byte
    32, and byte 31 is the second byte of the name. *)
Theorem recorded_offset_misses_header :
  recorded_offset accented 1 = Some 31 /\
  (exists ch, central_header_at accented 1 = Some ch /\ field ch 42 4 = 31) /\
  local_header_position accented 1 = 32 /\
  take 4 (drop 32 (createZIP accented)) = [0x50; 0x4B; 0x03; 0x04] /\
  take 4 (drop 31 (createZIP accented)) = [0xA9; 0x50; 0x4B; 0x03] /\
  recorded_offset accented 1 <> Some (local_header_position accented 1).
Proof.
  split; [vm_compute; reflexivity|].
  split; [eexists; split; vm_compute; reflexivity|].
  split; [vm_compute; reflexivity|].
  split; [vm_compute; reflexivity|].
  split; [vm_compute; reflexivity|].
  vm_compute. discriminate.
Qed.

(** ** The end record *)

Section EndRecord.

Lemma createZIP_eq (files : list Input.file) :
  createZIP files
  = (Blob (concat (map local_parts (map complete files)))
     ++ Blob (concat (map central_parts
                        (assign_offsets 0 (map complete files)))))
    ++ end_record (Z.of_nat (length files))
         (total local_size (map complete files)
          + total central_size (map complete files))
         (total local_size (map complete files)).
Proof.
  unfold createZIP. rewrite createZIP_parts_eq, !Blob_app.
  rewrite <- app_assoc.
  do 2 f_equal; unfold Blob; simpl; by rewrite ?app_nil_r.
Qed.

Lemma end_of_central_directory_eq (files : list Input.file) :
  end_of_central_directory files
  = end_record (Z.of_nat (length files))
      (total local_size (map complete files)
       + total central_size (map complete files))
      (total local_size (map complete files)).
Proof.
  unfold end_of_central_directory. cbv zeta. rewrite createZIP_eq.
  rewrite length_app, length_end_record.
  replace (length _ + 22 - 22)%nat
    with (length (Blob (concat (map local_parts (map complete files)))
                  ++ Blob (concat (map central_parts
                                     (assign_offsets 0 (map complete files))))))
    by lia.
  apply drop_app_length.
Qed.

Lemma phase1_bytes_eq (files : list Input.file) :
  phase1_bytes files = total emitted_local_size (map complete files).
Proof.
  unfold phase1_bytes. rewrite phase1_eq. simpl. apply length_Blob_local.
Qed.

Lemma phase2_bytes_eq (files : list Input.file) :
  phase2_bytes files = total emitted_central_size (map complete files).
Proof.
  unfold phase2_bytes. rewrite phase1_bytes_eq, phase2_eq.
  cbn [zip_data]. rewrite Blob_app, length_app, Nat2Z.inj_add.
  rewrite length_Blob_local, length_Blob_central.
  rewrite emitted_central_assign_offsets. lia.
Qed.

(** What the four fields hold on every input. *)
Lemma end_record_fields (files : list Input.file) :
  let eocd := end_of_central_directory files in
  field eocd 8 2 = Z.of_nat (length files) mod 2 ^ 16 /\
  field eocd 10 2 = Z.of_nat (length files) mod 2 ^ 16 /\
  field eocd 12 4 = total central_size (map complete files) mod 2 ^ 32 /\
  field eocd 16 4 = total local_size (map complete files) mod 2 ^ 32.
Proof.
  cbv zeta. rewrite end_of_central_directory_eq.
  rewrite end_record_count_disk, end_record_count_total, end_record_size,
    end_record_offset.
  repeat split. f_equal. lia.
Qed.

Lemma total_nonneg (size : Entry.file -> Z) (files : list Entry.file) :
  (forall f, 0 <= size f) -> 0 <= total size files.
Proof.
  intros Hs. induction files as [|f r IH]; simpl; [lia|].
  specialize (Hs f). lia.
Qed.

End EndRecord.

(** C2, as stated, fails on [many_entries]: the two count fields are 16
    bits wide and hold 0, not the 65536 entries of the input. *)
Lemma end_record_count_wraps :
  field (end_of_central_directory many_entries) 8 2 = 0 /\
  Z.of_nat (length many_entries) = 65536 /\
  ~ end_record_summarizes many_entries.
Proof.
  assert (Hlen : Z.of_nat (length many_entries) = 65536).
  { unfold many_entries. rewrite length_replicate. apply Z2Nat.id. lia. }
  assert (Hfield : field (end_of_central_directory many_entries) 8 2 = 0).
  { rewrite (proj1 (end_record_fields many_entries)), Hlen. reflexivity. }
  split; [done|]. split; [done|].
  intros [Hcount _]. rewrite Hfield, Hlen in Hcount. discriminate.
Qed.

(** C2, amended. When the input has at most 65535 entries, every name is
    made of 7-bit code units and each of the first two loops emits fewer
    than 2^32 bytes, the two count fields of the end record equal the number
    of input entries, its size field equals the bytes emitted by the second
    loop and its offset field the bytes emitted by the first loop. *)
Theorem end_record_summarizes_archive (files : list Input.file) :
  Z.of_nat (length files) <= 65535 ->
  Forall ascii_name files ->
  phase1_bytes files < 2 ^ 32 ->
  phase2_bytes files < 2 ^ 32 ->
  end_record_summarizes files.
Proof.
  intros Hcount Hascii H1 H2.
  rewrite phase1_bytes_eq in H1. rewrite phase2_bytes_eq in H2.
  unfold end_record_summarizes.
  destruct (end_record_fields files) as (F1 & F2 & F3 & F4).
  cbv zeta in *. rewrite F1, F2, F3, F4, phase1_bytes_eq, phase2_bytes_eq.
  rewrite <- (emitted_local_ascii files Hascii).
  rewrite <- (emitted_central_ascii files Hascii).
  assert (0 <= total emitted_local_size (map complete files)).
  { apply total_nonneg. intros f. unfold emitted_local_size, byteLength. lia. }
  assert (0 <= total emitted_central_size (map complete files)).
  { apply total_nonneg. intros f. unfold emitted_central_size. lia. }
  change (2 ^ 16) with 65536. rewrite !Z.mod_small by lia. done.
Qed.

Lemma end_record_summarizes_archive_witness :
  end_record_summarizes folder_with_file.
Proof.
  apply end_record_summarizes_archive.
  - simpl. lia.
  - repeat constructor; vm_compute; intuition discriminate.
  - vm_compute. reflexivity.
  - vm_compute. reflexivity.
Defined.

(** ** The local section of an entry *)

Section LocalSection.

(** From the position of its header on, the Blob holds the header of
    entry [i], then the encoded name, then the data. *)
Lemma local_section_at_position (files : list Input.file) (i : nat)
    (file : Input.file) :
  files !! i = Some file ->
  exists rest,
    drop (Z.to_nat (local_header_position files i)) (createZIP files)
    = local_header (complete file)
      ++ utf8_encode (Input.name file) ++ Input.data file ++ rest.
Proof.
  intros Hi.
  assert (Hc : map complete files !! i = Some (complete file))
    by (by rewrite list_lookup_fmap, Hi).
  unfold local_header_position, part_position. rewrite Nat2Z.id.
  rewrite parts_before_header by (apply lookup_lt_Some in Hi; lia).
  rewrite createZIP_eq.
  assert (Hsplit :
    concat (map local_parts (map complete files))
    = concat (map local_parts (take i (map complete files)))
      ++ local_parts (complete file)
      ++ concat (map local_parts (drop (S i) (map complete files)))).
  { rewrite <- (take_drop_middle _ _ _ Hc) at 1.
    by rewrite map_app, concat_app. }
  rewrite Hsplit, !Blob_app, Blob_local_parts.
  cbn [complete Entry.name Entry.data].
  rewrite <- !app_assoc, drop_app_length.
  eexists. reflexivity.
Qed.

Lemma recorded_offset_next (files : list Input.file) (i : nat)
    (file next : Input.file) :
  files !! i = Some file ->
  files !! S i = Some next ->
  exists o,
    recorded_offset files i = Some o /\
    recorded_offset files (S i)
    = Some (o + 30 + str_length (Input.name file)
            + byteLength (Input.data file)).
Proof.
  intros Hi Hn.
  assert (Hc : map complete files !! i = Some (complete file))
    by (by rewrite list_lookup_fmap, Hi).
  eexists. split; [by apply (recorded_offset_eq files i file)|].
  rewrite (recorded_offset_eq _ _ _ Hn). f_equal.
  rewrite (take_S_r _ _ _ Hc), total_app. simpl.
  unfold local_size. simpl. lia.
Qed.

Lemma length_createZIP (files : list Input.file) :
  (22 <= length (createZIP files))%nat.
Proof. rewrite createZIP_eq, length_app, length_end_record. lia. Qed.

End LocalSection.

(** C10. For an entry whose name ends with '/' and whose data is not
    empty, the call does not fail; the name and then all the data bytes are
    pushed after the header and are in the Blob right after the encoded
    name; the iteration adds 30, the [length] of the name and the length of
    the data to the running offset, so that the offset recorded for the next
    entry counts the payload; and the CRC-32 field and both size fields are
    0 in the two headers of the entry. *)
Theorem directory_payload_is_archived (files : list Input.file) (i : nat)
    (file : Input.file) :
  files !! i = Some file ->
  (exists pre, Input.name file = pre ++ [0x2F]) ->
  Input.data file <> [] ->
  createZIP_call files = Returns (createZIP files) /\
  createZIP_parts files !! (3 * i + 1)%nat = Some (StringPart (Input.name file)) /\
  createZIP_parts files !! (3 * i + 2)%nat = Some (BufferPart (Input.data file)) /\
  (exists rest,
     drop (Z.to_nat (local_header_position files i)) (createZIP files)
     = local_header (complete file)
       ++ utf8_encode (Input.name file) ++ Input.data file ++ rest) /\
  (forall st,
     offset_count (fst (local_step st (complete file)))
     = offset_count st + 30 + str_length (Input.name file)
       + byteLength (Input.data file)) /\
  (forall next, files !! S i = Some next ->
     exists o,
       recorded_offset files i = Some o /\
       recorded_offset files (S i)
       = Some (o + 30 + str_length (Input.name file)
               + byteLength (Input.data file))) /\
  (exists lh ch,
     local_header_at files i = Some lh /\
     central_header_at files i = Some ch /\
     field lh 14 4 = 0 /\ field lh 18 4 = 0 /\ field lh 22 4 = 0 /\
     field ch 16 4 = 0 /\ field ch 20 4 = 0 /\ field ch 24 4 = 0).
Proof.
  intros Hi Hdir Hdata. apply ends_with_slash_iff in Hdir.
  split; [reflexivity|].
  split; [by rewrite (local_parts_at files i 1 file Hi) by lia|].
  split; [by rewrite (local_parts_at files i 2 file Hi) by lia|].
  split; [by apply local_section_at_position|].
  split.
  { intros st. rewrite local_step_eq. unfold local_size. simpl. lia. }
  split.
  { intros next Hn. by apply (recorded_offset_next files i file next). }
  eexists _, _.
  split; [by apply local_header_at_eq|].
  split; [by apply central_header_at_eq|].
  rewrite local_header_crc, local_header_compressed_size,
    local_header_uncompressed_size, central_header_crc,
    central_header_compressed_size, central_header_uncompressed_size.
  cbn [Entry.is_dir Entry.set_local_header_offset complete].
  rewrite Hdir. done.
Qed.

Lemma directory_payload_is_archived_witness :
  exists o,
    recorded_offset folder_with_data_first 0 = Some o /\
    recorded_offset folder_with_data_first 1 = Some (o + 30 + 2 + 3).
Proof.
  destruct (directory_payload_is_archived folder_with_data_first 0
              {| Input.name := units "d/"; Input.data := [1; 2; 3] |})
    as (_ & _ & _ & _ & _ & Hnext & _).
  - reflexivity.
  - exists (units "d"). reflexivity.
  - discriminate.
  - apply (Hnext {| Input.name := units "a.txt"; Input.data := [104; 105] |}).
    reflexivity.
Defined.

(** ** The store model runs like the pure model *)

Section StoreModel.

Lemma bind_run {A B : Type} (m : Heap.M A) (k : A -> Heap.M B) (s s1 : Heap.store) (a : A) :
  m s = Some (a, s1) -> Heap.bind m k s = k a s1.
Proof. intros Hm. unfold Heap.bind. by rewrite Hm. Qed.

Lemma load_run (s : Heap.store) (l : Heap.loc) (c : Heap.cell) :
  s !! l = Some c -> Heap.load l s = Some (c, s).
Proof. intros Hl. unfold Heap.load. by rewrite Hl. Qed.

Lemma read_buffer_run (s : Heap.store) (l : Heap.loc) (bytes : list Z) :
  s !! l = Some (Heap.Buffer bytes) -> Heap.read_buffer l s = Some (bytes, s).
Proof.
  intros Hl. unfold Heap.read_buffer.
  by rewrite (bind_run _ _ _ _ _ (load_run _ _ _ Hl)).
Qed.

Lemma read_entry_run (s : Heap.store) (c d : Heap.loc) (e : Entry.file) :
  holds s c e d -> Heap.read_entry c s = Some ((e, d), s).
Proof.
  intros [Hc Hd]. unfold Heap.read_entry.
  rewrite (bind_run _ _ _ _ _ (load_run _ _ _ Hc)).
  rewrite (bind_run _ _ _ _ _ (read_buffer_run _ _ _ Hd)).
  unfold Heap.ret. by destruct e.
Qed.

Lemma complete_run (s0 ext : Heap.store) (file : Heap.loc) (f : Input.file) :
  Heap.input_file s0 file = Some f ->
  exists d,
    s0 !! d = Some (Heap.Buffer (Input.data f)) /\
    Heap.complete file (s0 ++ ext)
    = Some (length (s0 ++ ext),
            (s0 ++ ext)
            ++ [Heap.CompleteObject (Input.name f) d (calcCRC32 (Input.data f))
                  (ends_with_slash (Input.name f)) None]).
Proof.
  unfold Heap.input_file. intros Hf.
  destruct (s0 !! file) as [[| |name d|]|] eqn:Hfile; try done.
  destruct (s0 !! d) as [[bytes| | |]|] eqn:Hd; try done.
  injection Hf as <-. exists d. split; [done|].
  unfold Heap.complete.
  rewrite (bind_run _ _ _ _ _
             (load_run _ _ _ (lookup_app_l_Some _ ext _ _ Hfile))).
  by rewrite (bind_run _ _ _ _ _
                (read_buffer_run _ _ _ (lookup_app_l_Some _ ext _ _ Hd))).
Qed.

Lemma input_file_app (s ext : Heap.store) (file : Heap.loc) (f : Input.file) :
  Heap.input_file s file = Some f -> Heap.input_file (s ++ ext) file = Some f.
Proof.
  unfold Heap.input_file. intros Hf.
  destruct (s !! file) as [[| |name d|]|] eqn:Hfile; try done.
  destruct (s !! d) as [[bytes| | |]|] eqn:Hd; try done.
  rewrite (lookup_app_l_Some _ _ _ _ Hfile).
  by rewrite (lookup_app_l_Some _ _ _ _ Hd).
Qed.

(** [files.map]: one new object per element, after the objects the Heap.store
    already has. *)
Lemma traverse_complete (s0 : Heap.store) (elements : list Heap.loc) :
  forall (fs : list Input.file) (ext : Heap.store),
    mapM (Heap.input_file s0) elements = Some fs ->
    exists cells,
      Heap.traverse Heap.complete elements (s0 ++ ext)
      = Some (seq (length (s0 ++ ext)) (length elements),
              (s0 ++ ext) ++ cells) /\
      Forall2
        (fun obj f =>
           exists d,
             s0 !! d = Some (Heap.Buffer (Input.data f)) /\
             obj = Heap.CompleteObject (Input.name f) d
                      (calcCRC32 (Input.data f))
                      (ends_with_slash (Input.name f)) None)
        cells fs.
Proof.
  induction elements as [|file rest IH]; intros fs ext Hfs.
  - injection Hfs as <-. exists []. split; [|constructor].
    simpl. unfold Heap.ret. by rewrite app_nil_r.
  - cbn [mapM] in Hfs.
    destruct (Heap.input_file s0 file) as [f|] eqn:Hf; [|done].
    cbn in Hfs.
    destruct (mapM (Heap.input_file s0) rest) as [fs'|] eqn:Hrest; [|done].
    injection Hfs as <-.
    destruct (complete_run s0 ext file f Hf) as (d & Hd0 & Hrun).
    destruct (IH fs' (ext ++ [Heap.CompleteObject (Input.name f) d
                                (calcCRC32 (Input.data f))
                                (ends_with_slash (Input.name f)) None])
                eq_refl) as (cells & Hcells & Hall).
    eexists (_ :: cells). split.
    + cbn [Heap.traverse]. rewrite (bind_run _ _ _ _ _ Hrun).
      rewrite app_assoc in Hcells. rewrite (bind_run _ _ _ _ _ Hcells).
      unfold Heap.ret. rewrite !length_app. simpl.
      rewrite <- !app_assoc. simpl.
      repeat f_equal; lia.
    + constructor; [|done]. by exists d.
Qed.

End StoreModel.

Section StoreLoops.

(** The objects [files.map] made stand for the normalized entries. *)
Lemma stands_for_new (base : Heap.store) (cells : list Heap.cell) :
  forall (fs : list Input.file) (pre : Heap.store),
    Forall2
      (fun obj f =>
         exists d,
           base !! d = Some (Heap.Buffer (Input.data f)) /\
           obj = Heap.CompleteObject (Input.name f) d
                    (calcCRC32 (Input.data f))
                    (ends_with_slash (Input.name f)) None)
      cells fs ->
    Forall2 (stands_for ((base ++ pre) ++ cells))
      (seq (length (base ++ pre)) (length cells)) (map complete fs).
Proof.
  induction cells as [|obj cells IH]; intros fs pre Hall.
  - inversion Hall; subst. constructor.
  - inversion Hall as [|? f ? fs' (d & Hd & ->) Hrest]; subst.
    cbn [length seq map]. constructor.
    + exists d. split.
      * by rewrite list_lookup_middle.
      * cbn [complete Entry.data]. rewrite <- app_assoc.
        by apply lookup_app_l_Some.
    + specialize (IH fs' (pre ++ [Heap.CompleteObject (Input.name f) d
                                    (calcCRC32 (Input.data f))
                                    (ends_with_slash (Input.name f)) None])
                    Hrest).
      rewrite !app_assoc, !length_app in IH. simpl in IH.
      rewrite <- !app_assoc in IH. rewrite <- !app_assoc. simpl in *.
      rewrite length_app.
      by replace (S (length base + length pre))
        with (length base + length pre + 1)%nat by lia.
Qed.

Lemma buffer_not_entry (s : Heap.store) (cs : list Heap.loc) (es : list Entry.file)
    (l : Heap.loc) (bytes : list Z) :
  Forall2 (stands_for s) cs es ->
  s !! l = Some (Heap.Buffer bytes) -> l ∉ cs.
Proof.
  intros Hall Hl Hin.
  apply list_elem_of_lookup in Hin as [k Hk].
  destruct (Forall2_lookup_l _ _ _ _ _ Hall Hk) as (e & _ & d & Hc & _).
  congruence.
Qed.

Lemma resolves_changes (cs : list Heap.loc) (es : list Entry.file)
    (s s' : Heap.store) (p : Heap.part) (q : blob_part) :
  Forall2 (stands_for s) cs es ->
  changes_only cs s s' ->
  resolves s p q -> resolves s' p q.
Proof.
  intros Hall [_ Hsame] Hr. destruct p as [l|a], q as [bytes|b]; try done.
  simpl in *. rewrite Hsame; [done| |].
  - by apply lookup_lt_Some in Hr.
  - by apply (buffer_not_entry s cs es l bytes).
Qed.

Lemma changes_only_refl (cs : list Heap.loc) (s : Heap.store) : changes_only cs s s.
Proof. split; [lia|done]. Qed.

(** One iteration of the first loop on the Heap.store. *)
Lemma local_step_run (s : Heap.store) (st : Heap.zip_state) (c d : Heap.loc)
    (e : Entry.file) :
  holds s c e d ->
  Heap.local_step st c s
  = Some (Heap.push (Heap.push (Heap.push st (Heap.BufferRef (length s))
                        (byteLength (local_header e)))
                  (Heap.StringValue (Entry.name e)) (str_length (Entry.name e)))
            (Heap.BufferRef d) (byteLength (Entry.data e)),
          <[c := Heap.CompleteObject (Entry.name e) d (Entry.crc e)
                   (Entry.is_dir e) (Some (Heap.offset_count st))]>
            (s ++ [Heap.Buffer (local_header e)])).
Proof.
  intros Hh. unfold Heap.local_step.
  rewrite (bind_run _ _ _ _ _ (read_entry_run _ _ _ _ Hh)).
  unfold Heap.bind at 1. unfold Heap.alloc at 1.
  destruct Hh as [Hc Hd].
  unfold Heap.bind, Heap.set_local_header_offset.
  by rewrite (lookup_app_l_Some _ _ _ _ Hc).
Qed.

End StoreLoops.

Section FirstLoop.

(** Assigning the offset of [c] and allocating a buffer leave the other
    objects and every buffer as they are. *)
Lemma lookup_after_step (s ext : Heap.store) (c l : Heap.loc)
    (obj x : Heap.cell) :
  s !! l = Some x -> l <> c ->
  <[c := obj]> (s ++ ext) !! l = Some x.
Proof.
  intros Hl Hne. rewrite list_lookup_insert_ne by done.
  by apply lookup_app_l_Some.
Qed.

Lemma holds_after_step (s ext : Heap.store) (c c' d d' : Heap.loc)
    (e e' : Entry.file) (obj : Heap.cell) :
  holds s c e d -> holds s c' e' d' -> c' <> c ->
  holds (<[c := obj]> (s ++ ext)) c' e' d'.
Proof.
  intros [Hc _] [Hc' Hd'] Hne. split.
  - by apply lookup_after_step.
  - apply lookup_after_step; [done|]. intros ->. congruence.
Qed.

Lemma resolves_after_step (s ext : Heap.store) (c d : Heap.loc)
    (e : Entry.file) (obj : Heap.cell) (p : Heap.part) (q : blob_part) :
  holds s c e d -> resolves s p q ->
  resolves (<[c := obj]> (s ++ ext)) p q.
Proof.
  intros [Hc _] Hr. destruct p as [l|a], q as [bytes|b]; try done.
  simpl in *. apply lookup_after_step; [done|]. intros ->. congruence.
Qed.

Lemma local_loop (cs : list Heap.loc) :
  forall (es : list Entry.file) (st : Heap.zip_state) (sp : zip_state)
         (s : Heap.store),
    NoDup cs ->
    Forall2 (stands_for s) cs es ->
    same_state s st sp ->
    exists st' s',
      Heap.foldM Heap.local_step cs st s = Some (st', s') /\
      changes_only cs s s' /\
      same_state s' st' (fst (local_files sp es)) /\
      Forall2 (stands_for s') cs (snd (local_files sp es)).
Proof.
  induction cs as [|c cs IH]; intros es st sp s Hnd Hall [Hparts Hoff].
  - inversion Hall; subst. exists st, s. simpl.
    split; [done|]. split; [apply changes_only_refl|]. by repeat split.
  - inversion Hall as [|? e ? es' [d Hh] Hrest]; subst.
    apply NoDup_cons in Hnd as [Hc Hnd].
    set (obj := Heap.CompleteObject (Entry.name e) d (Entry.crc e)
                  (Entry.is_dir e) (Some (Heap.offset_count st))).
    set (s1 := <[c := obj]> (s ++ [Heap.Buffer (local_header e)])).
    assert (Hclt : (c < length s)%nat)
      by (destruct Hh as [Hc' _]; by apply lookup_lt_Some in Hc').
    assert (Hrest1 : Forall2 (stands_for s1) cs es').
    { apply Forall2_same_length_lookup. split.
      - by apply Forall2_length in Hrest.
      - intros k c' e' Hc' He'.
        destruct (Forall2_lookup_lr _ _ _ _ _ _ Hrest Hc' He') as [d' Hh'].
        exists d'. apply (holds_after_step s _ c c' d d' e e'); [done..|].
        intros ->. apply Hc. by apply list_elem_of_lookup_2 in Hc'. }
    assert (Hh1 : holds s1 c (Entry.set_local_header_offset e (offset_count sp)) d).
    { destruct Hh as [Hc' Hd]. split; cbn.
      - unfold s1. rewrite list_lookup_insert_eq
          by (rewrite length_app; simpl; lia).
        unfold obj. by rewrite Hoff.
      - unfold s1. apply lookup_after_step; [done|]. intros ->. congruence. }
    assert (Hstate1 :
      same_state s1
        (Heap.push (Heap.push (Heap.push st (Heap.BufferRef (length s))
                                 (byteLength (local_header e)))
                      (Heap.StringValue (Entry.name e))
                      (str_length (Entry.name e)))
           (Heap.BufferRef d) (byteLength (Entry.data e)))
        (fst (local_step sp e))).
    { rewrite local_step_eq. split; cbn.
      - rewrite <- !app_assoc. apply Forall2_app.
        + eapply Forall2_impl; [exact Hparts|]. intros p q Hr.
          by apply (resolves_after_step s _ c d e).
        + repeat constructor; cbn.
          * unfold s1. rewrite list_lookup_insert_ne by lia.
            by rewrite list_lookup_middle.
          * by destruct Hh1 as [_ Hd1].
      - unfold local_size, byteLength. rewrite length_local_header. lia. }
    destruct (IH es' _ _ s1 Hnd Hrest1 Hstate1)
      as (st' & s' & Hrun & [Hlen Hsame] & Hstate' & Hall').
    exists st', s'. split; [|split; [|split]].
    + cbn [Heap.foldM].
      by rewrite (bind_run _ _ _ _ _ (local_step_run s st c d e Hh)).
    + assert (Hlen1 : length s1 = S (length s)).
      { unfold s1. rewrite length_insert, length_app. simpl. lia. }
      split; [lia|]. intros l Hl Hnin.
      apply not_elem_of_cons in Hnin as [Hne Hnin].
      rewrite Hsame by (done || lia).
      unfold s1. rewrite list_lookup_insert_ne by done.
      by apply lookup_app_l.
    + cbn [local_files]. rewrite local_step_eq in *. cbn [fst] in Hstate'.
      by destruct (local_files _ es').
    + cbn [local_files]. rewrite local_step_eq in *.
      cbn [fst] in Hall'. destruct (local_files _ es') as [sp2 es2].
      cbn [snd] in *. constructor; [|done].
      exists d. destruct Hh1 as [Hc1 Hd1].
      assert (Hlen1 : length s1 = S (length s)).
      { unfold s1. rewrite length_insert, length_app. simpl. lia. }
      split.
      * rewrite Hsame; [done|lia|done].
      * rewrite Hsame; [done| |].
        -- by apply lookup_lt_Some in Hd1.
        -- by apply (buffer_not_entry s1 cs es' d _ Hrest1 Hd1).
Qed.

End FirstLoop.

Section SecondLoop.

Lemma holds_app (s ext : Heap.store) (c d : Heap.loc) (e : Entry.file) :
  holds s c e d -> holds (s ++ ext) c e d.
Proof. intros [Hc Hd]. split; by apply lookup_app_l_Some. Qed.

Lemma resolves_app (s ext : Heap.store) (p : Heap.part) (q : blob_part) :
  resolves s p q -> resolves (s ++ ext) p q.
Proof.
  destruct p as [l|a], q as [bytes|b]; try done.
  simpl. apply lookup_app_l_Some.
Qed.

Lemma central_step_run (s : Heap.store) (st : Heap.zip_state)
    (c d : Heap.loc) (e : Entry.file) :
  holds s c e d ->
  Heap.central_step st c s
  = Some (Heap.push (Heap.push st (Heap.BufferRef (length s))
                       (byteLength (central_header e)))
            (Heap.StringValue (Entry.name e)) (str_length (Entry.name e)),
          s ++ [Heap.Buffer (central_header e)]).
Proof.
  intros Hh. unfold Heap.central_step.
  by rewrite (bind_run _ _ _ _ _ (read_entry_run _ _ _ _ Hh)).
Qed.

Lemma central_loop (cs : list Heap.loc) :
  forall (es : list Entry.file) (st : Heap.zip_state) (sp : zip_state)
         (s : Heap.store),
    Forall2 (stands_for s) cs es ->
    same_state s st sp ->
    exists st' ext,
      Heap.foldM Heap.central_step cs st s = Some (st', s ++ ext) /\
      same_state (s ++ ext) st' (central_directory sp es).
Proof.
  induction cs as [|c cs IH]; intros es st sp s Hall [Hparts Hoff].
  - inversion Hall; subst. exists st, []. rewrite app_nil_r. by repeat split.
  - inversion Hall as [|? e ? es' [d Hh] Hrest]; subst.
    set (s1 := s ++ [Heap.Buffer (central_header e)]).
    assert (Hrest1 : Forall2 (stands_for s1) cs es').
    { eapply Forall2_impl; [exact Hrest|]. intros c' e' [d' Hh'].
      exists d'. by apply holds_app. }
    assert (Hstate1 :
      same_state s1
        (Heap.push (Heap.push st (Heap.BufferRef (length s))
                      (byteLength (central_header e)))
           (Heap.StringValue (Entry.name e)) (str_length (Entry.name e)))
        (central_step sp e)).
    { rewrite central_step_eq. split; cbn.
      - rewrite <- !app_assoc. apply Forall2_app.
        + eapply Forall2_impl; [exact Hparts|]. intros p q.
          apply resolves_app.
        + repeat constructor; cbn.
          unfold s1. by rewrite list_lookup_middle.
      - unfold central_size, byteLength. rewrite length_central_header. lia. }
    destruct (IH es' _ _ s1 Hrest1 Hstate1) as (st' & ext & Hrun & Hstate').
    exists st', (Heap.Buffer (central_header e) :: ext).
    unfold s1 in *. rewrite <- app_assoc in Hrun, Hstate'. split.
    + cbn [Heap.foldM].
      by rewrite (bind_run _ _ _ _ _ (central_step_run s st c d e Hh)).
    + done.
Qed.

Lemma traverse_part_bytes (s : Heap.store) (parts : list Heap.part) :
  forall qs, Forall2 (resolves s) parts qs ->
    Heap.traverse Heap.part_bytes parts s = Some (map part_bytes qs, s).
Proof.
  induction parts as [|p parts IH]; intros qs Hall.
  - by inversion Hall; subst.
  - inversion Hall as [|? q ? qs' Hr Hrest]; subst.
    cbn [Heap.traverse map].
    assert (Hp : Heap.part_bytes p s = Some (part_bytes q, s)).
    { destruct p as [l|a], q as [bytes|b]; try done; simpl in *.
      - by apply read_buffer_run.
      - by subst. }
    rewrite (bind_run _ _ _ _ _ Hp).
    by rewrite (bind_run _ _ _ _ _ (IH _ Hrest)).
Qed.

Lemma Blob_run (s : Heap.store) (parts : list Heap.part)
    (qs : list blob_part) :
  Forall2 (resolves s) parts qs ->
  Heap.Blob parts s = Some (Blob qs, s).
Proof.
  intros Hall. unfold Heap.Blob.
  by rewrite (bind_run _ _ _ _ _ (traverse_part_bytes _ _ _ Hall)).
Qed.

Lemma input_file_preserved (s s' : Heap.store) (file : Heap.loc)
    (f : Input.file) :
  (forall l obj, s !! l = Some obj -> s' !! l = Some obj) ->
  Heap.input_file s file = Some f ->
  Heap.input_file s' file = Some f.
Proof.
  intros Hext. unfold Heap.input_file.
  destruct (s !! file) as [[| |name d|]|] eqn:Hfile; try done.
  destruct (s !! d) as [[bytes| | |]|] eqn:Hd; try done.
  by rewrite (Hext _ _ Hfile), (Hext _ _ Hd).
Qed.

Lemma mapM_input_file_preserved (s s' : Heap.store)
    (elements : list Heap.loc) :
  (forall l obj, s !! l = Some obj -> s' !! l = Some obj) ->
  forall fs,
    mapM (Heap.input_file s) elements = Some fs ->
    mapM (Heap.input_file s') elements = Some fs.
Proof.
  intros Hext. induction elements as [|file rest IH]; intros fs Hfs; [done|].
  cbn [mapM] in *.
  destruct (Heap.input_file s file) as [f|] eqn:Hf; [|done].
  cbn in Hfs.
  destruct (mapM (Heap.input_file s) rest) as [fs'|] eqn:Hrest; [|done].
  rewrite (input_file_preserved s s' file f Hext Hf). cbn.
  by rewrite (IH fs' eq_refl).
Qed.

Lemma input_files_preserved (s s' : Heap.store) (files : Heap.loc)
    (fs : list Input.file) :
  (forall l obj, s !! l = Some obj -> s' !! l = Some obj) ->
  Heap.input_files s files = Some fs ->
  Heap.input_files s' files = Some fs.
Proof.
  intros Hext. unfold Heap.input_files.
  destruct (s !! files) as [[|elements| |]|] eqn:Hfiles; try done.
  rewrite (Hext _ _ Hfiles). by apply mapM_input_file_preserved.
Qed.

End SecondLoop.

(** A call on a well-typed list runs to its end, whatever the names, sizes
    and number of the entries; it returns the archive of the pure model and
    keeps every object the store held. *)
Lemma createZIP_store_run (s : Heap.store) (files : Heap.loc)
    (fs : list Input.file) :
  Heap.input_files s files = Some fs ->
  exists s',
    Heap.createZIP files s = Some (createZIP fs, s') /\
    (forall l obj, s !! l = Some obj -> s' !! l = Some obj).
Proof.
  intros Hin.
  unfold Heap.input_files in Hin.
  destruct (s !! files) as [[|elements| |]|] eqn:Hfiles; try done.
  destruct (traverse_complete s elements fs [] Hin) as (cells & Hmap & Hcells).
  rewrite app_nil_r in Hmap.
  pose proof (stands_for_new s cells fs [] Hcells) as Hall.
  rewrite app_nil_r in Hall.
  assert (Hlen : length cells = length elements).
  { apply Forall2_length in Hcells. apply length_mapM in Hin. lia. }
  rewrite Hlen in Hall.
  set (cs := seq (length s) (length elements)) in *.
  destruct (local_loop cs (map complete fs)
              {| Heap.zip_data := []; Heap.offset_count := 0 |}
              initial_state (s ++ cells) (NoDup_seq _ _) Hall)
    as (st1 & s2 & Hrun1 & [Hlen2 Hsame2] & Hstate1 & Hall1).
  { split; [constructor|done]. }
  fold (phase1 fs) in Hstate1, Hall1.
  destruct (central_loop cs _ st1 _ s2 Hall1 Hstate1)
    as (st2 & ext & Hrun2 & [Hparts2 Hoff2]).
  destruct Hstate1 as [_ Hoff1].
  eexists. split.
  - unfold Heap.createZIP.
    assert (Harr : Heap.read_array files s = Some (elements, s)).
    { unfold Heap.read_array.
      by rewrite (bind_run _ _ _ _ _ (load_run _ _ _ Hfiles)). }
    rewrite (bind_run _ _ _ _ _ Harr).
    rewrite (bind_run _ _ _ _ _ Hmap).
    rewrite (bind_run _ _ _ _ _ Hrun1).
    rewrite (bind_run _ _ _ _ _ Hrun2).
    unfold Heap.bind at 1, Heap.alloc at 1.
    unfold createZIP, createZIP_parts.
    destruct (phase1 fs) as [sp1 es1] eqn:Hp1. cbn [fst snd] in *.
    apply Blob_run. apply Forall2_app.
    + eapply Forall2_impl; [exact Hparts2|]. intros p q. apply resolves_app.
    + repeat constructor. cbn.
      rewrite list_lookup_middle by done.
      apply Forall2_length in Hall1. rewrite Hall1, Hoff1, Hoff2. done.
  - intros l obj Hl.
    apply lookup_app_l_Some, lookup_app_l_Some.
    rewrite Hsame2.
    + by apply lookup_app_l_Some.
    + apply lookup_lt_Some in Hl. rewrite length_app. lia.
    + unfold cs. rewrite elem_of_seq. apply lookup_lt_Some in Hl. lia.
Qed.

(** C9. A call of [createZIP] on a list of [{name, data}] objects returns
    the archive of the pure model and leaves every object the store held
    before the call as it was: the caller's array, the name and data fields
    of each of its elements and the content of each data buffer.  The only
    objects written are the ones the call itself created. *)
Theorem createZIP_leaves_input (s : Heap.store) (files : Heap.loc)
    (fs : list Input.file) :
  Heap.input_files s files = Some fs ->
  exists s',
    Heap.createZIP files s = Some (createZIP fs, s') /\
    (forall l obj, s !! l = Some obj -> s' !! l = Some obj) /\
    Heap.input_files s' files = Some fs.
Proof.
  intros Hin.
  destruct (createZIP_store_run s files fs Hin) as (s' & Hrun & Hext).
  exists s'. split; [done|]. split; [done|].
  by apply (input_files_preserved s s').
Qed.

Lemma createZIP_leaves_input_witness :
  exists s',
    Heap.createZIP 4%nat heap_example
    = Some (createZIP
              [ {| Input.name := units "a.txt"; Input.data := [104; 105] |};
                {| Input.name := units "folder/"; Input.data := [] |};
                {| Input.name := units "a.txt"; Input.data := [104; 105] |} ],
            s') /\
    (forall l obj, heap_example !! l = Some obj -> s' !! l = Some obj) /\
    Heap.input_files s' 4%nat
    = Some [ {| Input.name := units "a.txt"; Input.data := [104; 105] |};
             {| Input.name := units "folder/"; Input.data := [] |};
             {| Input.name := units "a.txt"; Input.data := [104; 105] |} ].
Proof.
  apply createZIP_leaves_input. vm_compute. reflexivity.
Defined.

(** ** No validation *)

(** C4, as stated, fails on [folder_with_data]: the specification rejects
    this input, and the call returns a complete archive of 105 bytes whose
    local section holds the three bytes of data. *)
Lemma invalid_input_is_archived :
  rejected_by_specification folder_with_data /\
  createZIP_call folder_with_data
  = Returns
      [80; 75; 3; 4; 20; 0; 0; 0; 0; 0; 0; 0; 0; 0; 0; 0; 0; 0; 0; 0; 0; 0;
       0; 0; 0; 0; 2; 0; 0; 0; 100; 47; 1; 2; 3;
       80; 75; 1; 2; 63; 3; 20; 0; 0; 0; 0; 0; 0; 0; 0; 0; 0; 0; 0; 0; 0; 0;
       0; 0; 0; 0; 0; 0; 2; 0; 0; 0; 0; 0; 0; 0; 0; 0; 0; 0; 237; 65; 0; 0;
       0; 0; 100; 47;
       80; 75; 5; 6; 0; 0; 0; 0; 1; 0; 1; 0; 48; 0; 0; 0; 35; 0; 0; 0; 0; 0] /\
  ~ (forall files,
       rejected_by_specification files -> createZIP_call files = Throws).
Proof.
  assert (Hrej : rejected_by_specification folder_with_data).
  { right. left. constructor. split; [by exists (units "d")|done]. }
  split; [exact Hrej|]. split; [vm_compute; reflexivity|].
  intros Hall. specialize (Hall _ Hrej). discriminate.
Qed.

(** C4, amended. [createZIP] validates nothing and never fails: on every
    input list, in every store that holds it, the call runs to its end and
    returns a complete archive, which ends with the 22-byte end record; the
    16-bit name-length and entry-count fields hold the [length] of the name
    and the number of entries modulo 2^16, the 32-bit size and offset fields
    hold the counted sizes and offsets modulo 2^32, and the data of every
    entry, directory or not, is in the archive. *)
Theorem createZIP_validates_nothing (files : list Input.file) :
  createZIP_call files = Returns (createZIP files) /\
  (forall s l, Heap.input_files s l = Some files ->
     exists s', Heap.createZIP l s = Some (createZIP files, s')) /\
  (22 <= length (createZIP files))%nat /\
  (let eocd := end_of_central_directory files in
   field eocd 0 4 = 0x06054B50 /\
   field eocd 8 2 = Z.of_nat (length files) mod 2 ^ 16 /\
   field eocd 10 2 = Z.of_nat (length files) mod 2 ^ 16 /\
   field eocd 12 4 = total central_size (map complete files) mod 2 ^ 32 /\
   field eocd 16 4 = total local_size (map complete files) mod 2 ^ 32) /\
  (forall i file, files !! i = Some file ->
     exists lh ch o,
       local_header_at files i = Some lh /\
       central_header_at files i = Some ch /\
       recorded_offset files i = Some o /\
       field lh 26 2 = str_length (Input.name file) mod 2 ^ 16 /\
       field ch 28 2 = str_length (Input.name file) mod 2 ^ 16 /\
       field ch 42 4 = o mod 2 ^ 32 /\
       createZIP_parts files !! (3 * i + 2)%nat
       = Some (BufferPart (Input.data file))).
Proof.
  split; [reflexivity|]. split.
  { intros s l Hin.
    destruct (createZIP_store_run s l files Hin) as (s' & Hrun & _).
    by exists s'. }
  split; [apply length_createZIP|]. split.
  - cbv zeta. split; [|apply end_record_fields].
    rewrite end_of_central_directory_eq, end_record_bytes. reflexivity.
  - intros i file Hi. eexists _, _, _.
    split; [by apply local_header_at_eq|].
    split; [by apply central_header_at_eq|].
    split; [by apply (recorded_offset_eq files i file)|].
    rewrite local_header_name_length, central_header_name_length,
      central_header_offset.
    repeat split.
    by rewrite (local_parts_at files i 2 file Hi) by lia.
Qed.

Lemma createZIP_validates_nothing_witness :
  exists lh ch o,
    local_header_at folder_with_data 0 = Some lh /\
    central_header_at folder_with_data 0 = Some ch /\
    recorded_offset folder_with_data 0 = Some o /\
    field lh 26 2 = 2 mod 2 ^ 16 /\
    field ch 28 2 = 2 mod 2 ^ 16 /\
    field ch 42 4 = o mod 2 ^ 32 /\
    createZIP_parts folder_with_data !! 2%nat = Some (BufferPart [1; 2; 3]).
Proof.
  destruct (createZIP_validates_nothing folder_with_data) as (_ & _ & _ & _ & H).
  apply (H 0%nat {| Input.name := units "d/"; Input.data := [1; 2; 3] |}).
  reflexivity.
Defined.

(** The earlier copy never marks an entry as a directory. *)
Remark complete_earlier_never_directory (file : Input.file) :
  Entry.is_dir (complete_earlier file) = false.
Proof. reflexivity. Qed.


(** * Further properties *)

(** ** The size and the constant fields of the archive *)

Lemma archive_size_totals (files : list Input.file) :
  archive_size files
  = total emitted_local_size (map complete files)
    + total emitted_central_size (map complete files) + 22.
Proof.
  induction files as [|f rest IH]; [done|].
  cbn [archive_size map total fold_right] in *.
  fold (archive_size rest). rewrite IH.
  unfold total, entry_size, emitted_local_size, emitted_central_size. simpl.
  lia.
Qed.

(** X1. The archive of any list takes 22 bytes plus, for each entry, 76
    bytes of headers, twice the UTF-8 length of the name and the length of
    the data. *)
Theorem archive_length (files : list Input.file) :
  Z.of_nat (length (createZIP files)) = archive_size files.
Proof.
  rewrite createZIP_eq, !length_app, length_end_record, !Nat2Z.inj_add.
  rewrite length_Blob_local, length_Blob_central,
    emitted_central_assign_offsets, archive_size_totals.
  lia.
Qed.

(** X2. The local header of every entry is 30 bytes long and holds the
    signature 0x04034B50, version 20 for a name that ends with '/' and 10
    otherwise, and 0 in the flags, method, time, date and extra-length
    fields. *)
Theorem local_header_constant_fields (files : list Input.file) (i : nat)
    (file : Input.file) :
  files !! i = Some file ->
  exists lh,
    local_header_at files i = Some lh /\
    length lh = 30%nat /\
    field lh 0 4 = 0x04034B50 /\
    field lh 4 2 = (if ends_with_slash (Input.name file) then 20 else 10) /\
    field lh 6 2 = 0 /\ field lh 8 2 = 0 /\
    field lh 10 2 = 0 /\ field lh 12 2 = 0 /\
    field lh 28 2 = 0.
Proof.
  intros Hi. eexists. split; [by apply local_header_at_eq|].
  split; [apply length_local_header|].
  rewrite local_header_signature, local_header_version.
  split; [done|]. split; [done|].
  rewrite local_header_bytes.
  destruct (Entry.is_dir (complete file)); repeat split; reflexivity.
Qed.

Lemma local_header_constant_fields_witness :
  exists lh,
    local_header_at folder_with_file 1 = Some lh /\
    length lh = 30%nat /\
    field lh 0 4 = 0x04034B50 /\
    field lh 4 2 = 20 /\
    field lh 6 2 = 0 /\ field lh 8 2 = 0 /\
    field lh 10 2 = 0 /\ field lh 12 2 = 0 /\
    field lh 28 2 = 0.
Proof.
  apply (local_header_constant_fields folder_with_file 1
           {| Input.name := units "folder/"; Input.data := [] |}).
  reflexivity.
Defined.

(** X3. The central header of every entry is 46 bytes long and holds the
    signature 0x02014B50, "version made by" 63 on host 3 (UNIX), the same
    version needed as the local header, and 0 in the flags, method, time,
    date, extra-length, comment-length, disk-number and internal-attributes
    fields. *)
Theorem central_header_constant_fields (files : list Input.file) (i : nat)
    (file : Input.file) :
  files !! i = Some file ->
  exists ch,
    central_header_at files i = Some ch /\
    length ch = 46%nat /\
    field ch 0 4 = 0x02014B50 /\
    field ch 4 1 = 63 /\ field ch 5 1 = 3 /\
    field ch 6 2 = (if ends_with_slash (Input.name file) then 20 else 10) /\
    field ch 8 2 = 0 /\ field ch 10 2 = 0 /\
    field ch 12 2 = 0 /\ field ch 14 2 = 0 /\
    field ch 30 2 = 0 /\ field ch 32 2 = 0 /\
    field ch 34 2 = 0 /\ field ch 36 2 = 0.
Proof.
  intros Hi. eexists. split; [by apply central_header_at_eq|].
  split; [apply length_central_header|].
  rewrite central_header_bytes.
  cbn [Entry.is_dir Entry.set_local_header_offset complete].
  destruct (ends_with_slash (Input.name file)); repeat split; reflexivity.
Qed.

Lemma central_header_constant_fields_witness :
  exists ch,
    central_header_at folder_with_file 0 = Some ch /\
    length ch = 46%nat /\
    field ch 0 4 = 0x02014B50 /\
    field ch 4 1 = 63 /\ field ch 5 1 = 3 /\
    field ch 6 2 = 10 /\
    field ch 8 2 = 0 /\ field ch 10 2 = 0 /\
    field ch 12 2 = 0 /\ field ch 14 2 = 0 /\
    field ch 30 2 = 0 /\ field ch 32 2 = 0 /\
    field ch 34 2 = 0 /\ field ch 36 2 = 0.
Proof.
  apply (central_header_constant_fields folder_with_file 0
           {| Input.name := units "a.txt"; Input.data := [104; 105] |}).
  reflexivity.
Defined.

(** ** The variable fields of an entry *)

Section EntryFields.

Lemma total_take_S (size : Entry.file -> Z) (l : list Entry.file) (i : nat)
    (e : Entry.file) :
  l !! i = Some e ->
  total size (take (S i) l) = total size (take i l) + size e.
Proof.
  intros Hi. rewrite (take_S_r _ _ _ Hi), total_app. simpl. lia.
Qed.

Lemma total_take_mono (size : Entry.file -> Z) (l : list Entry.file) :
  (forall f, 0 <= size f) ->
  forall i j, (i <= j)%nat ->
    total size (take i l) <= total size (take j l).
Proof.
  intros Hs i j Hij. induction Hij as [|j Hij IH]; [lia|].
  destruct (l !! j) as [e|] eqn:Hj.
  - rewrite (total_take_S _ _ _ _ Hj). specialize (Hs e). lia.
  - apply lookup_ge_None in Hj.
    rewrite (take_ge l (S j)) by lia. by rewrite (take_ge l j) in IH by lia.
Qed.

Lemma total_lookup_le (size : Entry.file -> Z) (l : list Entry.file)
    (i : nat) (e : Entry.file) :
  (forall f, 0 <= size f) ->
  l !! i = Some e -> size e <= total size l.
Proof.
  intros Hs Hi.
  pose proof (total_take_mono size l Hs (S i) (length l)
                ltac:(apply lookup_lt_Some in Hi; lia)) as Hle.
  rewrite firstn_all, (total_take_S _ _ _ _ Hi) in Hle.
  pose proof (total_nonneg size (take i l) Hs). lia.
Qed.

Lemma local_size_nonneg (f : Entry.file) : 0 <= local_size f.
Proof. unfold local_size, str_length, byteLength. lia. Qed.

Lemma emitted_local_size_nonneg (f : Entry.file) : 0 <= emitted_local_size f.
Proof. unfold emitted_local_size, byteLength. lia. Qed.

Lemma emitted_central_size_nonneg (f : Entry.file) :
  0 <= emitted_central_size f.
Proof. unfold emitted_central_size. lia. Qed.

End EntryFields.

(** X4. For an entry whose name does not end with '/', whose data is
    shorter than 2^32 bytes and whose name is shorter than 2^16 code units,
    the local and the central header both hold the CRC-32 of the data in
    the CRC field, the length of the data in the two size fields and the
    [length] of the name in the name-length field. *)
Theorem file_entry_fields (files : list Input.file) (i : nat)
    (file : Input.file) :
  files !! i = Some file ->
  ends_with_slash (Input.name file) = false ->
  byteLength (Input.data file) < 2 ^ 32 ->
  str_length (Input.name file) < 2 ^ 16 ->
  exists lh ch,
    local_header_at files i = Some lh /\
    central_header_at files i = Some ch /\
    field lh 14 4 = calcCRC32 (Input.data file) /\
    field ch 16 4 = calcCRC32 (Input.data file) /\
    field lh 18 4 = byteLength (Input.data file) /\
    field lh 22 4 = byteLength (Input.data file) /\
    field ch 20 4 = byteLength (Input.data file) /\
    field ch 24 4 = byteLength (Input.data file) /\
    field lh 26 2 = str_length (Input.name file) /\
    field ch 28 2 = str_length (Input.name file).
Proof.
  intros Hi Hfile Hdata Hname. eexists _, _.
  split; [by apply local_header_at_eq|].
  split; [by apply central_header_at_eq|].
  rewrite local_header_crc, local_header_compressed_size,
    local_header_uncompressed_size, local_header_name_length,
    central_header_crc, central_header_compressed_size,
    central_header_uncompressed_size, central_header_name_length.
  cbn [Entry.is_dir Entry.crc Entry.data Entry.name
       Entry.set_local_header_offset complete].
  rewrite Hfile.
  pose proof (calcCRC32_range (Input.data file)).
  assert (0 <= byteLength (Input.data file)) by (unfold byteLength; lia).
  assert (0 <= str_length (Input.name file)) by (unfold str_length; lia).
  rewrite !Z.mod_small by lia. done.
Qed.

Lemma file_entry_fields_witness :
  exists lh ch,
    local_header_at folder_with_file 0 = Some lh /\
    central_header_at folder_with_file 0 = Some ch /\
    field lh 14 4 = calcCRC32 [104; 105] /\
    field ch 16 4 = calcCRC32 [104; 105] /\
    field lh 18 4 = 2 /\ field lh 22 4 = 2 /\
    field ch 20 4 = 2 /\ field ch 24 4 = 2 /\
    field lh 26 2 = 5 /\ field ch 28 2 = 5.
Proof.
  apply (file_entry_fields folder_with_file 0
           {| Input.name := units "a.txt"; Input.data := [104; 105] |});
    vm_compute; reflexivity.
Defined.

(** X5. On every input, the central header of an entry repeats the
    version needed, the CRC-32, the two sizes and the name length of its
    local header. *)
Theorem headers_agree (files : list Input.file) (i : nat)
    (file : Input.file) :
  files !! i = Some file ->
  exists lh ch,
    local_header_at files i = Some lh /\
    central_header_at files i = Some ch /\
    field ch 6 2 = field lh 4 2 /\
    field ch 16 4 = field lh 14 4 /\
    field ch 20 4 = field lh 18 4 /\
    field ch 24 4 = field lh 22 4 /\
    field ch 28 2 = field lh 26 2.
Proof.
  intros Hi. eexists _, _.
  split; [by apply local_header_at_eq|].
  split; [by apply central_header_at_eq|].
  rewrite local_header_crc, local_header_compressed_size,
    local_header_uncompressed_size, local_header_name_length,
    local_header_version,
    central_header_crc, central_header_compressed_size,
    central_header_uncompressed_size, central_header_name_length.
  split; [|done].
  rewrite central_header_bytes.
  cbn [Entry.is_dir Entry.set_local_header_offset complete].
  destruct (ends_with_slash (Input.name file)); reflexivity.
Qed.

Lemma headers_agree_witness :
  exists lh ch,
    local_header_at accented 0 = Some lh /\
    central_header_at accented 0 = Some ch /\
    field ch 6 2 = field lh 4 2 /\
    field ch 16 4 = field lh 14 4 /\
    field ch 20 4 = field lh 18 4 /\
    field ch 24 4 = field lh 22 4 /\
    field ch 28 2 = field lh 26 2.
Proof.
  apply (headers_agree accented 0
           {| Input.name := [0xE9]; Input.data := [] |}).
  reflexivity.
Defined.

(** X6. The first loop leaves no offset unassigned: every entry has a
    recorded offset, the first one is 0, and the offset of a later entry is
    at least 30 more than the offset of an earlier one. *)
Theorem recorded_offsets_increase (files : list Input.file) :
  (forall i, (i < length files)%nat -> is_Some (recorded_offset files i)) /\
  (forall file, files !! 0%nat = Some file -> recorded_offset files 0 = Some 0) /\
  (forall i j oi oj, (i < j)%nat ->
     recorded_offset files i = Some oi ->
     recorded_offset files j = Some oj ->
     oi + 30 <= oj).
Proof.
  split; [|split].
  - intros i Hi. destruct (lookup_lt_is_Some_2 files i Hi) as [file Hfile].
    rewrite (recorded_offset_eq _ _ _ Hfile). by eexists.
  - intros file Hfile. by rewrite (recorded_offset_eq _ _ _ Hfile).
  - intros i j oi oj Hij Hoi Hoj.
    assert (Hsome : forall k o, recorded_offset files k = Some o ->
                      exists f, files !! k = Some f).
    { intros k o Hk. destruct (files !! k) as [f|] eqn:Hf; [by eexists|].
      unfold recorded_offset in Hk. rewrite phase1_eq in Hk. simpl in Hk.
      rewrite (proj2 (lookup_ge_None _ _)) in Hk; [done|].
      rewrite length_assign_offsets, length_map.
      by apply lookup_ge_None in Hf. }
    destruct (Hsome _ _ Hoi) as [fi Hfi]. destruct (Hsome _ _ Hoj) as [fj Hfj].
    rewrite (recorded_offset_eq _ _ _ Hfi) in Hoi.
    rewrite (recorded_offset_eq _ _ _ Hfj) in Hoj.
    injection Hoi as <-. injection Hoj as <-.
    assert (Hc : map complete files !! i = Some (complete fi))
      by (by rewrite list_lookup_fmap, Hfi).
    pose proof (total_take_mono local_size (map complete files)
                  local_size_nonneg (S i) j ltac:(lia)) as Hle.
    rewrite (total_take_S _ _ _ _ Hc) in Hle.
    unfold local_size at 2 in Hle. unfold str_length, byteLength in Hle. lia.
Qed.

Lemma recorded_offsets_increase_witness :
  37 + 30 <= 74.
Proof.
  apply (proj2 (proj2 (recorded_offsets_increase
           [ {| Input.name := units "a.txt"; Input.data := [104; 105] |};
             {| Input.name := units "folder/"; Input.data := [] |};
             {| Input.name := units "a.txt"; Input.data := [104; 105] |} ]))
           1%nat 2%nat 37 74); [lia| |]; vm_compute; reflexivity.
Defined.

(** ** The central directory and a reader of the archive *)

Section CentralDirectory.

Lemma assign_offsets_take (files : list Entry.file) :
  forall o i, take i (assign_offsets o files) = assign_offsets o (take i files).
Proof.
  induction files as [|f rest IH]; intros o i.
  - by destruct i.
  - destruct i as [|i]; [done|]. simpl. by rewrite IH.
Qed.

Lemma parts_before_central_header (files : list Input.file) (i : nat) :
  (i <= length files)%nat ->
  take (3 * length files + 2 * i) (createZIP_parts files)
  = concat (map local_parts (map complete files))
    ++ concat (map central_parts
                 (take i (assign_offsets 0 (map complete files)))).
Proof.
  intros Hi. rewrite createZIP_parts_eq.
  assert (Hlen : length (concat (map local_parts (map complete files)))
                 = (3 * length files)%nat)
    by (by rewrite (length_concat_chunks local_parts 3), length_map).
  rewrite <- Hlen, take_app_add. f_equal.
  rewrite take_app_le.
  - by apply (take_concat_chunks central_parts 2).
  - rewrite (length_concat_chunks central_parts 2) by done.
    rewrite length_assign_offsets, length_map. lia.
Qed.

Lemma central_header_position_eq (files : list Input.file) (i : nat) :
  (i <= length files)%nat ->
  central_header_position files i
  = total emitted_local_size (map complete files)
    + total emitted_central_size (take i (map complete files)).
Proof.
  intros Hi. unfold central_header_position, part_position.
  rewrite parts_before_central_header by done.
  rewrite Blob_app, length_app, Nat2Z.inj_add.
  rewrite length_Blob_local, length_Blob_central.
  by rewrite assign_offsets_take, emitted_central_assign_offsets.
Qed.

End CentralDirectory.

(** X7. The central directory keeps the order of the input: from the byte
    position of the central header of entry [i], which is the size of the
    local sections plus the size of the central entries before it, the
    archive holds that header, with the offset recorded for entry [i], and
    then the encoded name of entry [i]. *)
Theorem central_entry_at_position (files : list Input.file) (i : nat)
    (file : Input.file) :
  files !! i = Some file ->
  exists o rest,
    recorded_offset files i = Some o /\
    central_header_position files i
    = phase1_bytes files
      + total emitted_central_size (take i (map complete files)) /\
    drop (Z.to_nat (central_header_position files i)) (createZIP files)
    = central_header (Entry.set_local_header_offset (complete file) o)
      ++ utf8_encode (Input.name file) ++ rest.
Proof.
  intros Hi.
  assert (Hc : map complete files !! i = Some (complete file))
    by (by rewrite list_lookup_fmap, Hi).
  pose proof (assign_offsets_lookup _ 0 _ _ Hc) as Ha.
  rewrite Z.add_0_l in Ha.
  eexists _, _. split; [by apply (recorded_offset_eq files i file)|].
  split.
  { rewrite phase1_bytes_eq. apply central_header_position_eq.
    apply lookup_lt_Some in Hi. lia. }
  unfold central_header_position, part_position. rewrite Nat2Z.id.
  rewrite parts_before_central_header by (apply lookup_lt_Some in Hi; lia).
  rewrite createZIP_eq.
  assert (Hsplit :
    concat (map central_parts (assign_offsets 0 (map complete files)))
    = concat (map central_parts
                (take i (assign_offsets 0 (map complete files))))
      ++ central_parts
           (Entry.set_local_header_offset (complete file)
              (total local_size (take i (map complete files))))
      ++ concat (map central_parts
                   (drop (S i) (assign_offsets 0 (map complete files))))).
  { rewrite <- (take_drop_middle _ _ _ Ha) at 1.
    by rewrite map_app, concat_app. }
  rewrite Hsplit, !Blob_app, Blob_central_parts.
  cbn [complete Entry.name Entry.set_local_header_offset].
  rewrite <- !app_assoc.
  rewrite (app_assoc (Blob (concat (map local_parts (map complete files))))).
  rewrite drop_app_length. reflexivity.
Qed.

Lemma central_entry_at_position_witness :
  exists o rest,
    recorded_offset folder_with_file 1 = Some o /\
    central_header_position folder_with_file 1
    = phase1_bytes folder_with_file
      + total emitted_central_size (take 1 (map complete folder_with_file)) /\
    drop (Z.to_nat (central_header_position folder_with_file 1))
      (createZIP folder_with_file)
    = central_header
        (Entry.set_local_header_offset
           (complete {| Input.name := units "folder/"; Input.data := [] |}) o)
      ++ utf8_encode (units "folder/") ++ rest.
Proof.
  apply (central_entry_at_position folder_with_file 1
           {| Input.name := units "folder/"; Input.data := [] |}).
  reflexivity.
Defined.

(** X8. A reader that follows the central directory finds the entry.  When
    every name is made of 7-bit code units and the first loop emits fewer
    than 2^32 bytes, then for an entry whose name does not end with '/' and
    is shorter than 2^16 units: the offset field of its central header
    points at a local header with the signature 0x04034B50; the name-length
    field of that header delimits the name right after it, its size field
    delimits the data right after the name, and its CRC field is the
    checksum of that data. *)
Theorem reader_finds_entry (files : list Input.file) (i : nat)
    (file : Input.file) :
  Forall ascii_name files ->
  phase1_bytes files < 2 ^ 32 ->
  files !! i = Some file ->
  ends_with_slash (Input.name file) = false ->
  str_length (Input.name file) < 2 ^ 16 ->
  exists ch lh,
    central_header_at files i = Some ch /\
    lh = take 30 (drop (Z.to_nat (field ch 42 4)) (createZIP files)) /\
    field lh 0 4 = 0x04034B50 /\
    take (Z.to_nat (field lh 26 2))
      (drop (Z.to_nat (field ch 42 4) + 30) (createZIP files))
    = Input.name file /\
    take (Z.to_nat (field lh 22 4))
      (drop (Z.to_nat (field ch 42 4) + 30 + Z.to_nat (field lh 26 2))
         (createZIP files))
    = Input.data file /\
    field lh 14 4 = calcCRC32 (Input.data file).
Proof.
  intros Hascii Hsize Hi Hfile Hname.
  assert (Hc : map complete files !! i = Some (complete file))
    by (by rewrite list_lookup_fmap, Hi).
  pose proof (recorded_offset_ascii files i file Hascii Hi) as Hpos.
  rewrite (recorded_offset_eq _ _ _ Hi) in Hpos. injection Hpos as Hpos.
  rewrite phase1_bytes_eq in Hsize.
  assert (Hposle : 0 <= local_header_position files i
                   <= total emitted_local_size (map complete files)).
  { rewrite local_header_position_eq by (apply lookup_lt_Some in Hi; lia).
    split.
    - apply total_nonneg, emitted_local_size_nonneg.
    - pose proof (total_take_mono emitted_local_size (map complete files)
                    emitted_local_size_nonneg i (length (map complete files))
                    ltac:(apply lookup_lt_Some in Hc; lia)) as Hle.
      by rewrite firstn_all in Hle. }
  assert (Hdata : byteLength (Input.data file) < 2 ^ 32).
  { pose proof (total_lookup_le emitted_local_size _ _ _
                  emitted_local_size_nonneg Hc) as Hle.
    unfold emitted_local_size at 1 in Hle. cbn in Hle. lia. }
  destruct (local_section_at_position files i file Hi) as [rest Hdrop].
  rewrite (utf8_encode_ascii (Input.name file)) in Hdrop
    by (by eapply (proj1 (Forall_lookup _ _)) in Hascii).
  eexists _, _. split; [by apply central_header_at_eq|].
  rewrite central_header_offset.
  cbn [Entry.local_header_offset Entry.set_local_header_offset offset_number
       default].
  rewrite Hpos, (Z.mod_small (local_header_position files i)) by lia.
  split; [reflexivity|].
  assert (Hlh : take 30 (drop (Z.to_nat (local_header_position files i))
                           (createZIP files))
                = local_header (complete file)).
  { rewrite Hdrop. apply take_app_length'. by rewrite length_local_header. }
  assert (Hafter : drop (Z.to_nat (local_header_position files i) + 30)
                     (createZIP files)
                   = Input.name file ++ Input.data file ++ rest).
  { rewrite <- drop_drop, Hdrop.
    apply drop_app_length'. by rewrite length_local_header. }
  rewrite Hlh, local_header_signature, local_header_name_length,
    local_header_uncompressed_size, local_header_crc.
  cbn [Entry.is_dir Entry.crc Entry.data Entry.name complete].
  rewrite Hfile.
  pose proof (calcCRC32_range (Input.data file)).
  assert (0 <= byteLength (Input.data file)) by (unfold byteLength; lia).
  assert (0 <= str_length (Input.name file)) by (unfold str_length; lia).
  rewrite !Z.mod_small by lia.
  unfold str_length, byteLength. rewrite !Nat2Z.id.
  split; [done|]. split; [|split; [|done]].
  - rewrite Hafter. by apply take_app_length'.
  - rewrite <- drop_drop, Hafter, drop_app_length.
    by apply take_app_length'.
Qed.

Lemma reader_finds_entry_witness :
  exists ch lh,
    central_header_at folder_with_data_first 1 = Some ch /\
    lh = take 30 (drop (Z.to_nat (field ch 42 4))
                    (createZIP folder_with_data_first)) /\
    field lh 0 4 = 0x04034B50 /\
    take (Z.to_nat (field lh 26 2))
      (drop (Z.to_nat (field ch 42 4) + 30) (createZIP folder_with_data_first))
    = units "a.txt" /\
    take (Z.to_nat (field lh 22 4))
      (drop (Z.to_nat (field ch 42 4) + 30 + Z.to_nat (field lh 26 2))
         (createZIP folder_with_data_first))
    = [104; 105] /\
    field lh 14 4 = calcCRC32 [104; 105].
Proof.
  apply (reader_finds_entry folder_with_data_first 1
           {| Input.name := units "a.txt"; Input.data := [104; 105] |}).
  - repeat constructor; vm_compute; intuition discriminate.
  - vm_compute. reflexivity.
  - reflexivity.
  - vm_compute. reflexivity.
  - vm_compute. reflexivity.
Defined.

(** X9. The end record locates the central directory.  When every name is
    made of 7-bit code units and the archive is shorter than 2^32 bytes, the
    archive ends with a record that holds the signature 0x06054B50 and 0 in
    its two disk-number fields and in its comment-length field; its offset
    field is the byte position of the first central header, and offset plus
    size is the position of the record itself, 22 bytes before the end. *)
Theorem end_record_locates_directory (files : list Input.file) :
  Forall ascii_name files ->
  Z.of_nat (length (createZIP files)) < 2 ^ 32 ->
  let eocd := end_of_central_directory files in
  length eocd = 22%nat /\
  field eocd 0 4 = 0x06054B50 /\
  field eocd 4 2 = 0 /\ field eocd 6 2 = 0 /\ field eocd 20 2 = 0 /\
  field eocd 16 4 = central_header_position files 0 /\
  field eocd 16 4 + field eocd 12 4 + 22 = Z.of_nat (length (createZIP files)) /\
  drop (Z.to_nat (field eocd 16 4 + field eocd 12 4)) (createZIP files) = eocd.
Proof.
  intros Hascii Hlen. cbv zeta.
  destruct (end_record_fields files) as (_ & _ & F3 & F4). cbv zeta in *.
  rewrite F3, F4. clear F3 F4.
  assert (Hout : Z.of_nat (length (createZIP files))
                 = total local_size (map complete files)
                   + total central_size (map complete files) + 22).
  { rewrite createZIP_eq, !length_app, length_end_record, !Nat2Z.inj_add.
    rewrite length_Blob_local, length_Blob_central,
      emitted_central_assign_offsets.
    rewrite (emitted_local_ascii files Hascii).
    rewrite (emitted_central_ascii files Hascii). lia. }
  assert (0 <= total local_size (map complete files))
    by apply total_nonneg, local_size_nonneg.
  assert (0 <= total central_size (map complete files)).
  { apply total_nonneg. intros f. unfold central_size, str_length. lia. }
  rewrite !Z.mod_small by lia.
  rewrite central_header_position_eq by lia.
  rewrite (emitted_local_ascii files Hascii).
  cbn [take total fold_right]. rewrite Z.add_0_r.
  rewrite end_of_central_directory_eq at 1 2 3 4 5.
  split; [apply length_end_record|].
  rewrite end_record_bytes.
  split; [reflexivity|]. split; [reflexivity|]. split; [reflexivity|].
  split; [reflexivity|]. split; [done|]. split; [lia|].
  unfold end_of_central_directory. cbv zeta. f_equal. lia.
Qed.

Lemma end_record_locates_directory_witness :
  let eocd := end_of_central_directory folder_with_file in
  length eocd = 22%nat /\
  field eocd 0 4 = 0x06054B50 /\
  field eocd 4 2 = 0 /\ field eocd 6 2 = 0 /\ field eocd 20 2 = 0 /\
  field eocd 16 4 = central_header_position folder_with_file 0 /\
  field eocd 16 4 + field eocd 12 4 + 22
  = Z.of_nat (length (createZIP folder_with_file)) /\
  drop (Z.to_nat (field eocd 16 4 + field eocd 12 4))
    (createZIP folder_with_file) = eocd.
Proof.
  apply end_record_locates_directory.
  - repeat constructor; vm_compute; intuition discriminate.
  - vm_compute. reflexivity.
Defined.

(** ** The writers on any value and any buffer *)

Section WritersAnywhere.

Lemma take_4_lookup (l : list Z) (a b c d : Z) :
  l !! 0%nat = Some a -> l !! 1%nat = Some b ->
  l !! 2%nat = Some c -> l !! 3%nat = Some d ->
  take 4 l = [a; b; c; d].
Proof.
  destruct l as [|? [|? [|? [|? ?]]]]; intros; simplify_eq/=; done.
Qed.

Lemma take_2_lookup (l : list Z) (a b : Z) :
  l !! 0%nat = Some a -> l !! 1%nat = Some b -> take 2 l = [a; b].
Proof. destruct l as [|? [|? ?]]; intros; simplify_eq/=; done. Qed.

Lemma field_write4B (arr : list Z) (start_i : nat) (value : Z) :
  (start_i + 4 <= length arr)%nat ->
  field (write4B arr start_i value) start_i 4 = value mod 2 ^ 32.
Proof.
  intros Hlen. unfold field.
  rewrite (take_4_lookup _ (value / 256 ^ Z.of_nat 0 mod 256)
             (value / 256 ^ Z.of_nat 1 mod 256)
             (value / 256 ^ Z.of_nat 2 mod 256)
             (value / 256 ^ Z.of_nat 3 mod 256)).
  - change (256 ^ Z.of_nat 0) with 1. change (256 ^ Z.of_nat 1) with 256.
    change (256 ^ Z.of_nat 2) with 65536.
    change (256 ^ Z.of_nat 3) with 16777216.
    rewrite Z.div_1_r, <- le_bytes_4. apply le_value_le_bytes.
  - rewrite lookup_drop. by apply write4B_at; lia.
  - rewrite lookup_drop. by apply write4B_at; lia.
  - rewrite lookup_drop. by apply write4B_at; lia.
  - rewrite lookup_drop. by apply write4B_at; lia.
Qed.

Lemma field_write2B (arr : list Z) (start_i : nat) (value : Z) :
  (start_i + 2 <= length arr)%nat ->
  field (write2B arr start_i value) start_i 2 = value mod 2 ^ 16.
Proof.
  intros Hlen. unfold field.
  rewrite (take_2_lookup _ (value / 256 ^ Z.of_nat 0 mod 256)
             (value / 256 ^ Z.of_nat 1 mod 256)).
  - change (256 ^ Z.of_nat 0) with 1. change (256 ^ Z.of_nat 1) with 256.
    rewrite Z.div_1_r, <- le_bytes_2. apply le_value_le_bytes.
  - rewrite lookup_drop. by apply write2B_at; lia.
  - rewrite lookup_drop. by apply write2B_at; lia.
Qed.

End WritersAnywhere.

(** X10. The writers keep the low bits of any integer and never grow a
    buffer: read back as a little-endian number, the four bytes [write4B]
    wrote are the value modulo 2^32 and the two bytes [write2B] wrote are the
    value modulo 2^16, also for a negative or too large value; a write that
    starts at or after the end of the buffer changes nothing. *)
Theorem writers_wrap_and_stay_in_bounds (arr : list Z) (start_i : nat)
    (value : Z) :
  ((start_i + 4 <= length arr)%nat ->
     field (write4B arr start_i value) start_i 4 = value mod 2 ^ 32) /\
  ((start_i + 2 <= length arr)%nat ->
     field (write2B arr start_i value) start_i 2 = value mod 2 ^ 16) /\
  ((length arr <= start_i)%nat ->
     write4B arr start_i value = arr /\ write2B arr start_i value = arr).
Proof.
  split; [apply field_write4B|]. split; [apply field_write2B|].
  intros Hout. unfold write4B, write2B, JS.u8_store.
  rewrite !list_insert_ge by (rewrite ?length_insert; lia). done.
Qed.

Lemma writers_wrap_and_stay_in_bounds_witness :
  field (write4B [9; 9; 9; 9; 9] 1 (-2)) 1 4 = 0xFFFFFFFE /\
  field (write2B [9; 9; 9; 9; 9] 1 0x12345) 1 2 = 0x2345 /\
  write4B [9; 9] 2 7 = [9; 9].
Proof.
  split; [|split].
  - apply (proj1 (writers_wrap_and_stay_in_bounds [9; 9; 9; 9; 9] 1 (-2))).
    simpl. lia.
  - apply (proj1 (proj2
             (writers_wrap_and_stay_in_bounds [9; 9; 9; 9; 9] 1 0x12345))).
    simpl. lia.
  - apply (proj2 (proj2 (writers_wrap_and_stay_in_bounds [9; 9] 2 7))).
    simpl. lia.
Defined.

(** ** The checksum of data followed by its checksum *)

Section Residue.

Lemma reference_shift_lxor (a b : Z) :
  reference_shift (Z.lxor a b)
  = Z.lxor (reference_shift a) (reference_shift b).
Proof.
  unfold reference_shift. rewrite Z.lxor_spec, Z.shiftr_lxor.
  destruct (Z.testbit a 0), (Z.testbit b 0); cbn [xorb].
  - rewrite Z.lxor_assoc, (Z.lxor_comm crc32_polynomial),
      <- !Z.lxor_assoc, Z.lxor_assoc, Z.lxor_nilpotent, Z.lxor_0_r. done.
  - rewrite !Z.lxor_assoc. f_equal. apply Z.lxor_comm.
  - by rewrite Z.lxor_assoc.
  - done.
Qed.

Lemma iter_shift_lxor (n : nat) (a b : Z) :
  Nat.iter n reference_shift (Z.lxor a b)
  = Z.lxor (Nat.iter n reference_shift a) (Nat.iter n reference_shift b).
Proof.
  induction n as [|n IH]; [done|]. rewrite !Nat.iter_succ.
  by rewrite IH, reference_shift_lxor.
Qed.

Lemma reference_shift_double (y : Z) : reference_shift (2 * y) = y.
Proof.
  unfold reference_shift. rewrite Z.testbit_even_0.
  rewrite Z.shiftr_div_pow2 by lia. change (2 ^ 1) with 2.
  by rewrite Z.mul_comm, Z.div_mul by lia.
Qed.

Lemma iter_shift_scaled (n : nat) (y : Z) :
  Nat.iter n reference_shift (2 ^ Z.of_nat n * y) = y.
Proof.
  induction n as [|n IH].
  - simpl. lia.
  - rewrite Nat.iter_succ_r, Nat2Z.inj_succ, Z.pow_succ_r by lia.
    rewrite <- Z.mul_assoc, reference_shift_double. apply IH.
Qed.

(** A byte and a multiple of 256 have no bit in common. *)
Lemma lxor_low_high (a y : Z) :
  0 <= a < 256 -> Z.lxor a (256 * y) = a + 256 * y.
Proof.
  intros Ha. symmetry. apply Z.add_nocarry_lxor.
  apply Z.bits_inj'. intros n Hn. rewrite Z.land_spec, Z.bits_0.
  destruct (Z.ltb_spec n 8).
  - change 256 with (2 ^ 8). rewrite Z.mul_comm, Z.mul_pow2_bits_low by lia.
    apply andb_false_r.
  - rewrite <- (Z.mod_small a (2 ^ 8)) by lia.
    by rewrite Z.mod_pow2_bits_high by lia.
Qed.

Lemma fold_le_bytes (n : nat) :
  forall v r,
    fold_left reference_byte (le_bytes n v) r
    = Nat.iter (8 * n) reference_shift (Z.lxor r (v mod 256 ^ Z.of_nat n)).
Proof.
  induction n as [|n IH]; intros v r.
  - simpl. by rewrite Z.mod_1_r, Z.lxor_0_r.
  - cbn [le_bytes fold_left]. rewrite IH.
    replace (8 * S n)%nat with (8 * n + 8)%nat by lia.
    rewrite Nat.iter_add. f_equal. unfold reference_byte.
    rewrite Nat2Z.inj_succ, Z.pow_succ_r by lia.
    rewrite (Z.rem_mul_r v 256 (256 ^ Z.of_nat n)) by lia.
    rewrite <- (lxor_low_high (v mod 256)) by (apply Z.mod_pos_bound; lia).
    rewrite <- Z.lxor_assoc.
    rewrite (iter_shift_lxor 8 (Z.lxor r (v mod 256))). f_equal.
    symmetry. apply (iter_shift_scaled 8).
Qed.

Lemma le_bytes_are_bytes (n : nat) :
  forall v, Forall is_byte (le_bytes n v).
Proof.
  induction n as [|n IH]; intros v; cbn [le_bytes]; constructor; [|apply IH].
  unfold is_byte. apply Z.mod_pos_bound. lia.
Qed.

Lemma calcCRC32_register (data : list Z) :
  Forall is_byte data ->
  calcCRC32 data
  = Z.lxor (fold_left reference_byte data 0xFFFFFFFF) 0xFFFFFFFF.
Proof.
  intros Hdata. rewrite calcCRC32_unfold, crc_bytes_reference by done.
  reflexivity.
Qed.

End Residue.

(** X11. For every sequence of bytes, the checksum of the sequence followed
    by the four bytes of its own checksum, least significant first, is the
    constant 0x2144DF1C. *)
Theorem calcCRC32_residue (data : list Z) :
  Forall is_byte data ->
  calcCRC32 (data ++ le_bytes 4 (calcCRC32 data)) = 0x2144DF1C.
Proof.
  intros Hdata.
  rewrite (calcCRC32_register (data ++ _))
    by (apply Forall_app; split; [done|apply le_bytes_are_bytes]).
  rewrite fold_left_app, fold_le_bytes.
  pose proof (calcCRC32_range data) as Hrange.
  change (256 ^ Z.of_nat 4) with (2 ^ 32).
  rewrite (Z.mod_small (calcCRC32 data)) by lia.
  rewrite (calcCRC32_register data Hdata).
  rewrite <- Z.lxor_assoc, Z.lxor_nilpotent, Z.lxor_0_l.
  vm_compute. reflexivity.
Qed.

Lemma calcCRC32_residue_witness :
  calcCRC32 ([104; 105] ++ le_bytes 4 (calcCRC32 [104; 105])) = 0x2144DF1C.
Proof.
  apply calcCRC32_residue. repeat constructor; unfold is_byte; lia.
Defined.

(** ** The two copies of [createZIP] *)

Section Copies.

Lemma total_map_ext (size : Entry.file -> Z) (g g' : Input.file -> Entry.file)
    (l : list Input.file) :
  (forall f, size (g f) = size (g' f)) ->
  total size (map g l) = total size (map g' l).
Proof.
  intros Hext. induction l as [|f rest IH]; [done|].
  cbn [map total fold_right] in *. fold (total size (map g rest)).
  fold (total size (map g' rest)). by rewrite IH, Hext.
Qed.

Lemma createZIP_earlier_eq (files : list Input.file) :
  exists tail,
    createZIP_earlier files
    = Blob (concat (map local_parts (map complete_earlier files))) ++ tail.
Proof.
  unfold createZIP_earlier, createZIP_parts_earlier, phase1_earlier.
  rewrite local_files_eq, central_directory_eq. cbn [zip_data app].
  rewrite <- app_assoc, Blob_app. by eexists.
Qed.

(** The byte at offset 4 of the local header of entry [i]. *)
Lemma version_byte_at (es : list Entry.file) (i : nat) (e : Entry.file)
    (tail : list Z) :
  es !! i = Some e ->
  (Blob (concat (map local_parts es)) ++ tail)
    !! (Z.to_nat (total emitted_local_size (take i es)) + 4)%nat
  = Some (if Entry.is_dir e then 20 else 10).
Proof.
  intros Hi.
  assert (Hsplit :
    concat (map local_parts es)
    = concat (map local_parts (take i es))
      ++ local_parts e ++ concat (map local_parts (drop (S i) es))).
  { rewrite <- (take_drop_middle _ _ _ Hi) at 1.
    by rewrite map_app, concat_app. }
  rewrite Hsplit, !Blob_app, Blob_local_parts, <- !app_assoc.
  rewrite <- length_Blob_local, Nat2Z.id.
  rewrite lookup_app_r by lia.
  replace (length _ + 4 - length _)%nat with 4%nat by lia.
  rewrite lookup_app_l by (rewrite length_local_header; lia).
  rewrite local_header_bytes. by destruct (Entry.is_dir e).
Qed.

Lemma complete_earlier_eq (file : Input.file) :
  ends_with_slash (Input.name file) = false ->
  complete_earlier file = complete file.
Proof. intros Hfile. unfold complete_earlier, complete. by rewrite Hfile. Qed.

End Copies.

(** X12. The earlier copy of [createZIP] builds the same archive as the
    current one exactly when no name of the list ends with '/'. *)
Theorem createZIP_earlier_agrees (files : list Input.file) :
  createZIP_earlier files = createZIP files
  <-> Forall (fun file => ends_with_slash (Input.name file) = false) files.
Proof.
  split.
  - intros Heq. apply Forall_lookup. intros i file Hi.
    destruct (ends_with_slash (Input.name file)) eqn:Hdir; [|done].
    exfalso.
    destruct (createZIP_earlier_eq files) as [tail0 H0].
    assert (exists tail1,
      createZIP files
      = Blob (concat (map local_parts (map complete files))) ++ tail1)
      as [tail1 H1].
    { rewrite createZIP_eq, <- app_assoc. by eexists. }
    assert (Hc0 : map complete_earlier files !! i = Some (complete_earlier file))
      by (by rewrite list_lookup_fmap, Hi).
    assert (Hc1 : map complete files !! i = Some (complete file))
      by (by rewrite list_lookup_fmap, Hi).
    pose proof (version_byte_at _ i _ tail0 Hc0) as B0.
    pose proof (version_byte_at _ i _ tail1 Hc1) as B1.
    rewrite <- H0 in B0. rewrite <- H1 in B1.
    rewrite !firstn_map in B0, B1.
    rewrite (total_map_ext emitted_local_size complete_earlier complete)
      in B0 by done.
    rewrite Heq, B1 in B0. cbn in B0. rewrite Hdir in B0. discriminate.
  - intros Hall. unfold createZIP_earlier, createZIP_parts_earlier,
      phase1_earlier, createZIP, createZIP_parts, phase1.
    replace (map complete_earlier files) with (map complete files); [done|].
    apply map_ext_Forall. eapply Forall_impl; [exact Hall|].
    intros f Hf. symmetry. by apply complete_earlier_eq.
Qed.

Lemma createZIP_earlier_agrees_witness :
  createZIP_earlier scenarioB = createZIP scenarioB.
Proof.
  apply createZIP_earlier_agrees. repeat constructor.
Defined.

(** ** The path field *)

Lemma ends_with_slash_snoc (s : list Z) (u : Z) :
  ends_with_slash (s ++ [u]) = (u =? 0x2F).
Proof.
  destruct (u =? 47) eqn:Hu.
  - apply Z.eqb_eq in Hu as ->. apply ends_with_slash_iff. by exists s.
  - destruct (ends_with_slash (s ++ [u])) eqn:Hs; [|done].
    apply ends_with_slash_iff in Hs as [pre Hpre].
    apply app_inj_tail in Hpre as [_ ->]. done.
Qed.

Lemma ends_with_slash_app (s t : list Z) :
  t <> [] -> ends_with_slash (s ++ t) = ends_with_slash t.
Proof.
  intros Ht. destruct t as [|u t] using rev_ind; [done|].
  by rewrite app_assoc, !ends_with_slash_snoc.
Qed.

(** X13. [determinePath] returns the empty path for the empty field and
    only for it; for any other field the result ends with '/'; the result
    is the field itself, or the field followed by one '/', and it is the
    field itself when the field already ends with '/'; applying the function
    twice changes nothing more. *)
Theorem determinePath_shape (input_path_value : list Z) :
  (determinePath input_path_value = [] <-> input_path_value = []) /\
  (input_path_value <> [] ->
   ends_with_slash (determinePath input_path_value) = true) /\
  (determinePath input_path_value = input_path_value \/
   determinePath input_path_value = input_path_value ++ [0x2F]) /\
  (ends_with_slash input_path_value = true ->
   determinePath input_path_value = input_path_value) /\
  determinePath (determinePath input_path_value)
  = determinePath input_path_value.
Proof.
  assert (Hshape : forall v,
    (v = [] /\ determinePath v = []) \/
    (v <> [] /\ ends_with_slash v = true /\ determinePath v = v) \/
    (v <> [] /\ ends_with_slash v = false /\ determinePath v = v ++ [0x2F])).
  { intros v. unfold determinePath, str_length. cbv zeta.
    destruct v as [|u v]; [by left|]. right.
    destruct (Z.eqb_spec (Z.of_nat (length (u :: v))) 0) as [H0|_];
      [simpl in H0; lia|].
    destruct (ends_with_slash (u :: v)); [left|right]; done. }
  destruct (Hshape input_path_value)
    as [[-> Hd]|[(Hne & Hs & Hd)|(Hne & Hs & Hd)]].
  - rewrite Hd. split; [done|]. split; [done|]. split; [by left|]. done.
  - rewrite Hd. split; [done|]. split; [done|]. split; [by left|]. done.
  - rewrite Hd. split; [|split; [|split; [|split]]].
    + split; [|done]. intros H. by destruct input_path_value.
    + intros _. by rewrite ends_with_slash_snoc.
    + by right.
    + congruence.
    + destruct (Hshape (input_path_value ++ [0x2F]))
        as [[H _]|[(_ & _ & H)|(_ & Hs' & _)]].
      * by destruct input_path_value.
      * done.
      * rewrite ends_with_slash_snoc in Hs'. done.
Qed.

Lemma determinePath_shape_witness :
  ends_with_slash (determinePath (units "docs")) = true /\
  determinePath (units "docs/") = units "docs/".
Proof.
  split.
  - apply (proj1 (proj2 (determinePath_shape (units "docs")))). discriminate.
  - apply (proj1 (proj2 (proj2 (proj2 (determinePath_shape (units "docs/")))))).
    reflexivity.
Defined.

(** ** The list of the page *)

Section PageList.

Variable localeCompare : list Z -> list Z -> Z.

Lemma sort_insert_perm (x : Input.file) (l : list Input.file) :
  Permutation (sort_insert localeCompare x l) (x :: l).
Proof.
  induction l as [|y rest IH]; [done|]. cbn [sort_insert].
  destruct (by_name localeCompare x y <=? 0); [done|].
  rewrite IH. apply perm_swap.
Qed.

Lemma Array_sort_perm (l : list Input.file) :
  Permutation (Array_sort localeCompare l) l.
Proof.
  induction l as [|x rest IH]; [done|]. cbn [Array_sort fold_right].
  fold (Array_sort localeCompare rest). by rewrite sort_insert_perm, IH.
Qed.

Lemma sort_insert_sorted (x : Input.file) (l : list Input.file) :
  consistent (by_name localeCompare) ->
  StronglySorted (before localeCompare) l ->
  StronglySorted (before localeCompare) (sort_insert localeCompare x l).
Proof.
  intros [Htotal Htrans] Hl. induction Hl as [|y rest Hrest IH Hy].
  - repeat constructor.
  - cbn [sort_insert].
    destruct (Z.leb_spec (by_name localeCompare x y) 0) as [Hle|Hgt].
    + constructor; [by constructor|]. constructor; [done|].
      eapply Forall_impl; [exact Hy|]. intros z Hz. by apply (Htrans x y z).
    + constructor; [done|].
      rewrite sort_insert_perm. constructor; [|done].
      by apply Htotal.
Qed.

Lemma Array_sort_sorted (l : list Input.file) :
  consistent (by_name localeCompare) ->
  StronglySorted (before localeCompare) (Array_sort localeCompare l).
Proof.
  intros Hc. induction l as [|x rest IH]; [constructor|].
  cbn [Array_sort fold_right]. by apply sort_insert_sorted.
Qed.

Lemma Array_sort_of_sorted (l : list Input.file) :
  StronglySorted (before localeCompare) l -> Array_sort localeCompare l = l.
Proof.
  induction 1 as [|x rest Hrest IH Hx]; [done|].
  cbn [Array_sort fold_right]. fold (Array_sort localeCompare rest).
  rewrite IH. destruct rest as [|y rest']; [done|]. cbn [sort_insert].
  inversion Hx as [|? ? Hxy _]; subst. unfold before in Hxy.
  by destruct (Z.leb_spec (by_name localeCompare x y) 0); [|lia].
Qed.

Lemma sorted_ordered (l : list Input.file) :
  StronglySorted (before localeCompare) l <-> ordered (by_name localeCompare) l.
Proof.
  split.
  - induction 1 as [|x rest Hrest IH Hx]; intros i j a b Hij Ha Hb.
    + by rewrite lookup_nil in Ha.
    + destruct j as [|j]; [lia|]. destruct i as [|i]; simpl in *.
      * injection Ha as <-.
        by apply (proj1 (Forall_lookup _ _) Hx j b).
      * apply (IH i j a b); [lia|done..].
  - induction l as [|x rest IH]; intros Hord; constructor.
    + apply IH. intros i j a b Hij Ha Hb.
      apply (Hord (S i) (S j) a b); [lia|done..].
    + apply Forall_lookup. intros j b Hb.
      apply (Hord 0%nat (S j) x b); [lia|done..].
Qed.

Lemma filter_from_all {A : Type} (i : nat) (l : list A) :
  forall k, (i < k)%nat ->
    filter_from (fun _ index => negb (index =? i)%nat) k l = l.
Proof.
  induction l as [|x rest IH]; intros k Hk; [done|].
  cbn [filter_from]. destruct (Nat.eqb_spec k i); [lia|]. cbn.
  by rewrite IH by lia.
Qed.

Lemma filter_from_delete {A : Type} (i : nat) (l : list A) :
  forall k, (k <= i)%nat ->
    filter_from (fun _ index => negb (index =? i)%nat) k l
    = delete (i - k)%nat l.
Proof.
  induction l as [|x rest IH]; intros k Hk; [done|].
  cbn [filter_from]. destruct (Nat.eqb_spec k i) as [->|Hne]; cbn.
  - rewrite Nat.sub_diag. cbn. apply filter_from_all. lia.
  - rewrite IH by lia.
    replace (i - k)%nat with (S (i - S k)) by lia. done.
Qed.

Lemma delete_sorted (i : nat) (l : list Input.file) :
  StronglySorted (before localeCompare) l -> StronglySorted (before localeCompare) (delete i l).
Proof.
  intros Hl. revert i. induction Hl as [|x rest Hrest IH Hx]; intros i.
  - destruct i; constructor.
  - destruct i as [|i]; [done|]. cbn. constructor; [apply IH|].
    apply Forall_forall. intros z Hz.
    apply (proj1 (Forall_forall _ _) Hx).
    apply (elem_of_sublist (delete i rest)); [done|apply sublist_delete].
Qed.

End PageList.

(** A comparator used in the examples: shorter names first. *)
Example by_length_consistent :
  consistent
    (by_name (fun a b => Z.of_nat (length a) - Z.of_nat (length b))).
Proof. unfold consistent, by_name. split; intros; lia. Qed.

(** X14. [updateFileDisplay] leaves in [files_to_zip] a permutation of
    what it held; with a comparator that orders names consistently the list
    is ordered by it, each entry placed before the entries that follow; a
    list that is already ordered is left as it is. *)
Theorem updateFileDisplay_sorts (localeCompare : list Z -> list Z -> Z)
    (files_to_zip : list Input.file) :
  Permutation (updateFileDisplay localeCompare files_to_zip) files_to_zip /\
  (consistent (by_name localeCompare) ->
   ordered (by_name localeCompare)
     (updateFileDisplay localeCompare files_to_zip)) /\
  (ordered (by_name localeCompare) files_to_zip ->
   updateFileDisplay localeCompare files_to_zip = files_to_zip).
Proof.
  unfold updateFileDisplay. split; [apply Array_sort_perm|]. split.
  - intros Hc. apply sorted_ordered. by apply Array_sort_sorted.
  - intros Hord. apply Array_sort_of_sorted. by apply sorted_ordered.
Qed.

Lemma updateFileDisplay_sorts_witness :
  ordered (by_name (fun a b => Z.of_nat (length a) - Z.of_nat (length b)))
    (updateFileDisplay
       (fun a b => Z.of_nat (length a) - Z.of_nat (length b))
       folder_with_file).
Proof.
  apply (proj1 (proj2 (updateFileDisplay_sorts _ folder_with_file))).
  unfold consistent, by_name. split; intros; lia.
Defined.

(** X15. A click on the [i]-th "Remove" button leaves the list without
    its [i]-th entry, up to the order; when the list was ordered, as
    [updateFileDisplay] leaves it, the result is exactly the list with the
    entry at index [i] deleted and the others in their order, and it is
    still ordered; an index past the end removes nothing. *)
Theorem remove_click_deletes (localeCompare : list Z -> list Z -> Z)
    (i : nat) (files_to_zip : list Input.file) :
  Permutation (remove_click localeCompare i files_to_zip)
    (delete i files_to_zip) /\
  (ordered (by_name localeCompare) files_to_zip ->
   remove_click localeCompare i files_to_zip = delete i files_to_zip /\
   ordered (by_name localeCompare)
     (remove_click localeCompare i files_to_zip)) /\
  ((length files_to_zip <= i)%nat ->
   Permutation (remove_click localeCompare i files_to_zip) files_to_zip).
Proof.
  assert (Hfilter :
    Array_filter (fun (_ : Input.file) index => negb (index =? i)%nat)
      files_to_zip
    = delete i files_to_zip).
  { unfold Array_filter. rewrite filter_from_delete by lia.
    by rewrite Nat.sub_0_r. }
  unfold remove_click, updateFileDisplay. cbv zeta. rewrite Hfilter.
  split; [apply Array_sort_perm|]. split.
  - intros Hord. apply sorted_ordered in Hord.
    pose proof (delete_sorted localeCompare i _ Hord) as Hdel.
    rewrite (Array_sort_of_sorted _ _ Hdel).
    split; [done|]. by apply sorted_ordered.
  - intros Hi. rewrite Array_sort_perm.
    clear Hfilter. revert i Hi.
    induction files_to_zip as [|x rest IH]; intros i Hi; [by destruct i|].
    destruct i as [|i]; cbn in *; [lia|]. by rewrite IH by lia.
Qed.

Lemma remove_click_deletes_witness :
  remove_click (fun a b => Z.of_nat (length a) - Z.of_nat (length b)) 0
    folder_with_file
  = [ {| Input.name := units "folder/"; Input.data := [] |} ].
Proof.
  apply (proj1 (proj2 (remove_click_deletes _ 0 folder_with_file))).
  intros i j a b Hij Ha Hb.
  destruct i as [|[|i]], j as [|[|j]]; try lia; simplify_eq/=.
  vm_compute. discriminate.
Defined.

Lemma determinePath_ends (input_path_value : list Z) :
  input_path_value <> [] ->
  ends_with_slash (determinePath input_path_value) = true.
Proof.
  intros Hne. unfold determinePath, str_length. cbv zeta.
  destruct (Z.eqb_spec (Z.of_nat (length input_path_value)) 0) as [H0|_].
  { destruct input_path_value; [done|simpl in H0; lia]. }
  destruct (ends_with_slash input_path_value) eqn:Hs; cbn [negb andb];
    [done|].
  apply ends_with_slash_snoc.
Qed.

(** X16. [addDirectory] adds exactly one entry, with no data. Its name
    ends with '/' and [createZIP] writes it as a directory when the path
    field is not empty; with an empty path field the entry has the empty
    name and [createZIP] writes it as a file. *)
Theorem addDirectory_adds_entry (localeCompare : list Z -> list Z -> Z)
    (input_path_value : list Z) (files_to_zip : list Input.file) :
  exists entry,
    Permutation (addDirectory localeCompare input_path_value files_to_zip)
      (entry :: files_to_zip) /\
    Input.data entry = [] /\
    Input.name entry = determinePath input_path_value /\
    (input_path_value <> [] -> Entry.is_dir (complete entry) = true) /\
    (input_path_value = [] ->
     Input.name entry = [] /\ Entry.is_dir (complete entry) = false).
Proof.
  exists (createFileDataObject (determinePath input_path_value)
            (JS.new_buffer 0)).
  split; [|split; [done|split; [done|split]]].
  - unfold addDirectory, updateFileDisplay. cbv zeta.
    rewrite Array_sort_perm. by rewrite Permutation_app_comm.
  - intros Hne. cbn [complete Entry.is_dir createFileDataObject Input.name].
    by apply determinePath_ends.
  - by intros ->.
Qed.

Section Reachable.

Variable localeCompare : list Z -> list Z -> Z.

Lemma Array_filter_sublist {A : Type} (keep : A -> nat -> bool) (l : list A) :
  forall k, filter_from keep k l `sublist_of` l.
Proof.
  induction l as [|x rest IH]; intros k; [done|]. cbn [filter_from].
  destruct (keep x k); [by apply sublist_skip|by apply sublist_cons].
Qed.

Lemma Forall_remove_click (P : Input.file -> Prop) (i : nat)
    (files : list Input.file) :
  Forall P files -> Forall P (remove_click localeCompare i files).
Proof.
  intros Hall. unfold remove_click, updateFileDisplay. cbv zeta.
  rewrite Array_sort_perm.
  apply Forall_forall. intros x Hx.
  apply (proj1 (Forall_forall _ _) Hall).
  eapply elem_of_sublist; [exact Hx|]. apply Array_filter_sublist.
Qed.

Lemma Forall_push_sorted (P : Input.file -> Prop) (entry : Input.file)
    (files : list Input.file) :
  P entry -> Forall P files ->
  Forall P (updateFileDisplay localeCompare (files ++ [entry])).
Proof.
  intros He Hall. unfold updateFileDisplay. rewrite Array_sort_perm.
  apply Forall_app. split; [done|by constructor].
Qed.

End Reachable.

(** X17. However files and directories are added and removed on the page,
    as long as no selected file has an empty name or a name that ends with
    '/', the list given to [createZIP] holds no entry whose name ends with
    '/' and whose data is not empty. *)
Theorem page_never_gives_directory_data
    (localeCompare : list Z -> list Z -> Z) (files : list Input.file) :
  reachable localeCompare files ->
  Forall (fun file => ends_with_slash (Input.name file) = true ->
                      Input.data file = []) files.
Proof.
  induction 1 as [|v file_name result files Hne Hfile _ IH|v files _ IH
                  |i files _ IH].
  - constructor.
  - unfold addFile_onload. cbv zeta.
    apply Forall_push_sorted; [|done]. cbn.
    rewrite ends_with_slash_app by done. congruence.
  - unfold addDirectory. cbv zeta. by apply Forall_push_sorted.
  - by apply Forall_remove_click.
Qed.

Lemma page_never_gives_directory_data_witness :
  Forall (fun file => ends_with_slash (Input.name file) = true ->
                      Input.data file = [])
    (addFile_onload (fun _ _ => 0) (units "docs") (units "a.txt") [104; 105]
       (addDirectory (fun _ _ => 0) (units "docs") [])).
Proof.
  apply (page_never_gives_directory_data (fun _ _ => 0)).
  apply reach_addFile; [discriminate|reflexivity|].
  apply reach_addDirectory. apply reach_initial.
Defined.

(** X18. With a comparator that orders names consistently, the list of the
    page is ordered by name after every addition and every removal. *)
Theorem page_list_is_ordered
    (localeCompare : list Z -> list Z -> Z) (files : list Input.file) :
  consistent (by_name localeCompare) ->
  reachable localeCompare files ->
  ordered (by_name localeCompare) files.
Proof.
  intros Hc Hreach. apply sorted_ordered.
  destruct Hreach as [|v file_name result files _ _ _|v files _|i files _].
  - constructor.
  - by apply Array_sort_sorted.
  - by apply Array_sort_sorted.
  - by apply Array_sort_sorted.
Qed.

Lemma page_list_is_ordered_witness :
  ordered (by_name (fun a b => Z.of_nat (length a) - Z.of_nat (length b)))
    (addDirectory (fun a b => Z.of_nat (length a) - Z.of_nat (length b))
       (units "docs") []).
Proof.
  apply (page_list_is_ordered
           (fun a b => Z.of_nat (length a) - Z.of_nat (length b))).
  - unfold consistent, by_name. split; intros; lia.
  - apply reach_addDirectory. apply reach_initial.
Defined.

(** ** Names that take more bytes than code units *)

Section Excess.

Lemma utf8_scalar_length (c : Z) : (1 <= length (utf8_scalar c))%nat.
Proof.
  unfold utf8_scalar.
  destruct (c <? 128); [simpl; lia|].
  destruct (c <? 2048); [simpl; lia|].
  destruct (c <? 65536); simpl; lia.
Qed.

Lemma utf8_scalar_length_4 (c : Z) :
  0x10000 <= c -> length (utf8_scalar c) = 4%nat.
Proof.
  intros Hc. unfold utf8_scalar.
  destruct (Z.ltb_spec c 128); [lia|].
  destruct (Z.ltb_spec c 2048); [lia|].
  destruct (Z.ltb_spec c 65536); [lia|]. done.
Qed.

Lemma scalar_values_cons (u : Z) (rest : list Z) :
  scalar_values (u :: rest)
  = if is_high_surrogate u then
      match rest with
      | v :: rest' =>
          if is_low_surrogate v
          then (0x10000 + (u - 0xD800) * 0x400 + (v - 0xDC00))
               :: scalar_values rest'
          else 0xFFFD :: scalar_values rest
      | [] => [0xFFFD]
      end
    else if is_low_surrogate u then 0xFFFD :: scalar_values rest
    else u :: scalar_values rest.
Proof. reflexivity. Qed.

(** Every code unit gives at least one byte. *)
Lemma utf8_encode_length (s : list Z) :
  (length s <= length (utf8_encode s))%nat.
Proof.
  unfold utf8_encode.
  assert (H : forall n s, (length s <= n)%nat ->
            (length s <= length (concat (map utf8_scalar (scalar_values s))))%nat).
  2:{ by apply (H (length s)). }
  clear s. induction n as [|n IH]; intros s Hn.
  - destruct s; [simpl; lia|simpl in Hn; lia].
  - destruct s as [|u rest]; [simpl; lia|]. rewrite scalar_values_cons.
    cbn [length] in Hn.
    destruct (is_high_surrogate u) eqn:Hhigh.
    + destruct rest as [|v rest']; [simpl; lia|]. cbn [length] in Hn.
      destruct (is_low_surrogate v) eqn:Hlow.
      * cbn [map concat length]. rewrite length_app, utf8_scalar_length_4.
        -- specialize (IH rest' ltac:(lia)). lia.
        -- unfold is_high_surrogate, is_low_surrogate in *. lia.
      * specialize (IH (v :: rest') ltac:(cbn [length]; lia)).
        cbn [map concat]. rewrite length_app.
        pose proof (utf8_scalar_length 65533). cbn [length] in *. lia.
    + specialize (IH rest ltac:(lia)).
      destruct (is_low_surrogate u); cbn [map concat];
        rewrite length_app.
      * pose proof (utf8_scalar_length 65533). cbn [length] in *. lia.
      * pose proof (utf8_scalar_length u). cbn [length] in *. lia.
Qed.

Lemma name_excess_nonneg (f : Entry.file) : 0 <= name_excess f.
Proof.
  unfold name_excess, str_length.
  pose proof (utf8_encode_length (Entry.name f)). lia.
Qed.

Lemma emitted_local_excess (l : list Entry.file) :
  total emitted_local_size l = total local_size l + total name_excess l.
Proof.
  induction l as [|f rest IH]; [done|].
  cbn [total fold_right] in *.
  fold (total emitted_local_size rest). fold (total local_size rest).
  fold (total name_excess rest). rewrite IH.
  unfold emitted_local_size, local_size, name_excess. lia.
Qed.

End Excess.

(** X19. On every input, the offset recorded for an entry is the byte
    position of its local header minus the bytes that the encoded names of
    the entries before it take beyond their [length]; it is never past the
    header, and it is the position of the header exactly when no earlier
    name takes more bytes than code units. *)
Theorem recorded_offset_lags (files : list Input.file) (i : nat)
    (file : Input.file) :
  files !! i = Some file ->
  exists o,
    recorded_offset files i = Some o /\
    local_header_position files i
    = o + total name_excess (take i (map complete files)) /\
    o <= local_header_position files i /\
    (o = local_header_position files i <->
     Forall (fun f => length (utf8_encode (Input.name f)) = length (Input.name f))
       (take i files)).
Proof.
  intros Hi. eexists. split; [by apply (recorded_offset_eq files i file)|].
  rewrite local_header_position_eq by (apply lookup_lt_Some in Hi; lia).
  rewrite emitted_local_excess.
  pose proof (total_nonneg name_excess (take i (map complete files))
                name_excess_nonneg) as Hpos.
  split; [done|]. split; [lia|].
  rewrite firstn_map.
  assert (Hzero : forall l : list Input.file,
    total name_excess (map complete l) = 0
    <-> Forall (fun f => length (utf8_encode (Input.name f))
                         = length (Input.name f)) l).
  { induction l as [|f rest IH]; [done|].
    cbn [map total fold_right]. fold (total name_excess (map complete rest)).
    pose proof (name_excess_nonneg (complete f)) as Hf.
    pose proof (total_nonneg name_excess (map complete rest)
                  name_excess_nonneg) as Hr.
    rewrite Forall_cons, <- IH.
    unfold name_excess, str_length in *. cbn [complete Entry.name] in *.
    lia. }
  rewrite <- Hzero. lia.
Qed.

Lemma recorded_offset_lags_witness :
  exists o,
    recorded_offset accented 1 = Some o /\
    local_header_position accented 1
    = o + total name_excess (take 1 (map complete accented)) /\
    o <= local_header_position accented 1 /\
    (o = local_header_position accented 1 <->
     Forall (fun f => length (utf8_encode (Input.name f)) = length (Input.name f))
       (take 1 accented)).
Proof.
  apply (recorded_offset_lags accented 1
           {| Input.name := units "b"; Input.data := [] |}).
  reflexivity.
Defined.

(** ** Two calls on the same list *)

(** X20. In the store model, a second call of [createZIP] on the same list
    object, after a first call has run, returns the same archive as the
    first: the objects the first call created and wrote do not reach the
    second. *)
Theorem createZIP_twice (s : list Heap.cell) (files : nat)
    (fs : list Input.file) :
  Heap.input_files s files = Some fs ->
  exists blob s1 s2,
    Heap.createZIP files s = Some (blob, s1) /\
    Heap.createZIP files s1 = Some (blob, s2) /\
    blob = createZIP fs /\
    (forall l obj, s !! l = Some obj -> s2 !! l = Some obj).
Proof.
  intros Hin.
  destruct (createZIP_store_run s files fs Hin) as (s1 & Hrun1 & Hext1).
  pose proof (input_files_preserved s s1 files fs Hext1 Hin) as Hin1.
  destruct (createZIP_store_run s1 files fs Hin1) as (s2 & Hrun2 & Hext2).
  exists (createZIP fs), s1, s2. repeat split; try done.
  intros l obj Hl. by apply Hext2, Hext1.
Qed.

Lemma createZIP_twice_witness :
  exists blob s1 s2,
    Heap.createZIP 4%nat heap_example = Some (blob, s1) /\
    Heap.createZIP 4%nat s1 = Some (blob, s2) /\
    blob
    = createZIP
        [ {| Input.name := units "a.txt"; Input.data := [104; 105] |};
          {| Input.name := units "folder/"; Input.data := [] |};
          {| Input.name := units "a.txt"; Input.data := [104; 105] |} ] /\
    (forall l obj, heap_example !! l = Some obj -> s2 !! l = Some obj).
Proof.
  apply createZIP_twice. vm_compute. reflexivity.
Defined.

Lemma addDirectory_adds_entry_witness :
  exists entry,
    Permutation (addDirectory (fun _ _ => 0) (units "docs") folder_with_file)
      (entry :: folder_with_file) /\
    Entry.is_dir (complete entry) = true.
Proof.
  destruct (addDirectory_adds_entry (fun _ _ => 0) (units "docs")
              folder_with_file) as (entry & Hperm & _ & _ & Hdir & _).
  exists entry. split; [exact Hperm|]. apply Hdir. discriminate.
Defined.
